(** * FIFOCache: a FIFO cache with a fixed TTL

    A shallow embedding of [FIFOCache] (fifo-ttl-cache.ts, and the
    compiled dist/fifo-ttl-cache.js which adds [has]) together with the
    properties of its specification.

    Modelling conventions.
    - A JavaScript [number] is [NaN], an infinity, or a finite double
      represented by its exact rational value.  [Math.floor], [>=], [>]
      and [===] are exact on doubles, so they are modelled exactly.
      Addition is modelled without rounding: the only sum of the program
      is [Date.now() + _ttlMs], and its result is only ever compared with
      later readings of [Date.now()], all below 2^53, so that rounding
      cannot change the outcome of a comparison.
    - [Date.now()] is an integer number of milliseconds; every operation
      that reads the clock takes the reading as an argument [now : Z].
    - The insertion-ordered [Map] is an association list, oldest entry
      first, with the operations of the ECMAScript [Map].
    - A method that returns [V | undefined] returns [option V]; a method
      that mutates [this] returns the new cache. *)

From Stdlib Require Import ZArith QArith Qround List Bool Lia Lqa.
Import ListNotations.

Set Implicit Arguments.

(** ** JavaScript numbers *)

Inductive number : Type :=
| NaN : number
| PInf : number
| NInf : number
| Fin : Q -> number.

Definition of_Z (z : Z) : number := Fin (inject_Z z).
Definition of_nat (n : nat) : number := of_Z (Z.of_nat n).

(** [Math.floor] *)
Definition Math_floor (x : number) : number :=
  match x with
  | Fin q => of_Z (Qfloor q)
  | _ => x
  end.

(** [a >= b] *)
Definition num_ge (a b : number) : bool :=
  match a, b with
  | NaN, _ | _, NaN => false
  | PInf, _ => true
  | _, NInf => true
  | NInf, _ => false
  | Fin _, PInf => false
  | Fin x, Fin y => Qle_bool y x
  end.

(** [a > b] *)
Definition num_gt (a b : number) : bool :=
  match a, b with
  | NaN, _ | _, NaN => false
  | _, PInf => false
  | NInf, _ => false
  | PInf, _ => true
  | Fin _, NInf => true
  | Fin x, Fin y => negb (Qle_bool x y)
  end.

(** [a < b] is [b > a]. *)
Definition num_lt (a b : number) : bool := num_gt b a.

(** [a === b] on numbers *)
Definition num_strict_eq (a b : number) : bool :=
  match a, b with
  | PInf, PInf => true
  | NInf, NInf => true
  | Fin x, Fin y => Qeq_bool x y
  | _, _ => false
  end.

(** [a + b] *)
Definition num_add (a b : number) : number :=
  match a, b with
  | NaN, _ | _, NaN => NaN
  | PInf, NInf | NInf, PInf => NaN
  | PInf, _ | _, PInf => PInf
  | NInf, _ | _, NInf => NInf
  | Fin x, Fin y => Fin (x + y)
  end.

(** ** [isNaturalNumber] *)

Definition isNaturalNumber (num : number) : bool :=
  let floored := Math_floor num in
  num_ge floored (of_Z 1) && num_strict_eq floored num.

(** ** Keys

    Keys of a [Map] are compared with SameValueZero; the model asks for
    a decidable equality on the key type. *)

Class EqDec (A : Type) : Type :=
  eq_dec : forall x y : A, {x = y} + {x <> y}.

#[global] Instance nat_EqDec : EqDec nat := Nat.eq_dec.
#[global] Instance Z_EqDec : EqDec Z := Z.eq_dec.

(** ** The insertion-ordered [Map<K, ValueHolder<V>>] *)

Record ValueHolder (V : Type) : Type := mkValueHolder {
  value : V;
  expirationTimestamp : number
}.

Definition JSMap (K V : Type) : Type := list (K * ValueHolder V).

Section MapOps.
Context {K V : Type} {K_eq : EqDec K}.

(** [Map.prototype.get]: [None] stands for [undefined]. *)
Fixpoint Map_get (key : K) (m : JSMap K V) : option (ValueHolder V) :=
  match m with
  | [] => None
  | (k, h) :: m' => if eq_dec k key then Some h else Map_get key m'
  end.

(** [Map.prototype.delete]: removes the entry of [key] and tells whether
    there was one. *)
Fixpoint Map_delete (key : K) (m : JSMap K V) : bool * JSMap K V :=
  match m with
  | [] => (false, [])
  | (k, h) :: m' =>
      if eq_dec k key then (true, m')
      else let (existed, r) := Map_delete key m' in (existed, (k, h) :: r)
  end.

(** [Map.prototype.set]: an existing key keeps its place, a new key is
    appended. *)
Fixpoint Map_set (key : K) (h : ValueHolder V) (m : JSMap K V) : JSMap K V :=
  match m with
  | [] => [(key, h)]
  | (k, h0) :: m' =>
      if eq_dec k key then (k, h) :: m' else (k, h0) :: Map_set key h m'
  end.

Definition Map_size (m : JSMap K V) : nat := length m.

Definition Map_keys (m : JSMap K V) : list K := map fst m.

(** [m.keys().next().value]: the first key in insertion order, or
    [undefined] on an empty map. *)
Definition Map_first_key (m : JSMap K V) : option K := hd_error (Map_keys m).

Definition Map_clear (m : JSMap K V) : JSMap K V := [].

End MapOps.

(** ** The cache *)

Record FIFOCache (K V : Type) : Type := mkFIFOCache {
  _capacity : number;
  _ttlMs : number;
  _cache : JSMap K V
}.

(** The two errors thrown by the constructor, with the offending value. *)
Inductive Error : Type :=
| CapacityNotNatural : number -> Error
| TtlNotNatural : number -> Error.

Section Cache.
Context {K V : Type} {K_eq : EqDec K}.

Definition with_cache (c : FIFOCache K V) (m : JSMap K V) : FIFOCache K V :=
  {| _capacity := _capacity c; _ttlMs := _ttlMs c; _cache := m |}.

(** [new FIFOCache(_capacity, _ttlMs)]: [inl] is a thrown error. *)
Definition constructor (capacity ttlMs : number) : Error + FIFOCache K V :=
  if negb (isNaturalNumber capacity) then inl (CapacityNotNatural capacity)
  else if negb (isNaturalNumber ttlMs) then inl (TtlNotNatural ttlMs)
  else inr {| _capacity := capacity; _ttlMs := ttlMs; _cache := [] |}.

Definition size (c : FIFOCache K V) : nat := Map_size (_cache c).

Definition isEmpty (c : FIFOCache K V) : bool := Nat.eqb (Map_size (_cache c)) 0.

(** The map of [set] after [delete(key)] and [set(key, ...)], before the
    capacity test. *)
Definition set_inserted (now : Z) (key : K) (v : V) (c : FIFOCache K V)
  : JSMap K V :=
  let expirationTimestamp := num_add (of_Z now) (_ttlMs c) in
  Map_set key {| value := v; expirationTimestamp := expirationTimestamp |}
    (snd (Map_delete key (_cache c))).

(** [set(key, value)].  On an empty map [keys().next().value] is
    [undefined] and deleting it removes nothing. *)
Definition set (now : Z) (key : K) (v : V) (c : FIFOCache K V)
  : FIFOCache K V :=
  let m := set_inserted now key v c in
  if num_gt (of_nat (Map_size m)) (_capacity c) then
    match Map_first_key m with
    | Some oldestKey => with_cache c (snd (Map_delete oldestKey m))
    | None => with_cache c m
    end
  else with_cache c m.

(** The key that the capacity branch of [set] deletes, if it is taken. *)
Definition evictedKey (now : Z) (key : K) (v : V) (c : FIFOCache K V)
  : option K :=
  let m := set_inserted now key v c in
  if num_gt (of_nat (Map_size m)) (_capacity c) then Map_first_key m else None.

(** [get(key)] of fifo-ttl-cache.ts *)
Definition get (now : Z) (key : K) (c : FIFOCache K V)
  : option V * FIFOCache K V :=
  match Map_get key (_cache c) with
  | None => (None, c)
  | Some valueHolder =>
      let isOutdated := num_ge (of_Z now) (expirationTimestamp valueHolder) in
      if isOutdated then (None, with_cache c (snd (Map_delete key (_cache c))))
      else (Some (value valueHolder), c)
  end.

(** [delete(key)] *)
Definition delete (key : K) (c : FIFOCache K V) : bool * FIFOCache K V :=
  let (existed, m) := Map_delete key (_cache c) in (existed, with_cache c m).

(** [clear()] *)
Definition clear (c : FIFOCache K V) : FIFOCache K V :=
  with_cache c (Map_clear (_cache c)).

End Cache.

(** ** The compiled dist/fifo-ttl-cache.js

    Version 1.1.0 routes [get] through [_getExpiringEntry] and adds
    [has]; the other methods are those above. *)

Module Dist.
Section Dist.
Context {K V : Type} {K_eq : EqDec K}.

Definition _getExpiringEntry (now : Z) (key : K) (c : FIFOCache K V)
  : option (ValueHolder V) * FIFOCache K V :=
  match Map_get key (_cache c) with
  | None => (None, c)
  | Some entry =>
      let isOutdated := num_ge (of_Z now) (expirationTimestamp entry) in
      if isOutdated then (None, with_cache c (snd (Map_delete key (_cache c))))
      else (Some entry, c)
  end.

(** [this._getExpiringEntry(key)?.value] *)
Definition get (now : Z) (key : K) (c : FIFOCache K V)
  : option V * FIFOCache K V :=
  let (entry, c') := _getExpiringEntry now key c in
  (option_map (@value V) entry, c').

(** [!!this._getExpiringEntry(key)]: an entry is an object, hence truthy. *)
Definition has (now : Z) (key : K) (c : FIFOCache K V)
  : bool * FIFOCache K V :=
  let (entry, c') := _getExpiringEntry now key c in
  (match entry with Some _ => true | None => false end, c').

End Dist.
End Dist.

(** ** Sequences of calls

    A caller drives a cache through a sequence of method calls, each one
    made at some reading of the clock. *)

Inductive Op (K V : Type) : Type :=
| OpSet : K -> V -> Op K V
| OpGet : K -> Op K V
| OpHas : K -> Op K V
| OpDelete : K -> Op K V
| OpClear : Op K V.

Arguments OpGet {K V} _.
Arguments OpHas {K V} _.
Arguments OpDelete {K V} _.
Arguments OpClear {K V}.

Section Calls.
Context {K V : Type} {K_eq : EqDec K}.

(** The cache after one call made at clock reading [fst call]. *)
Definition step (call : Z * Op K V) (c : FIFOCache K V) : FIFOCache K V :=
  let (now, op) := call in
  match op with
  | OpSet key v => set now key v c
  | OpGet key => snd (get now key c)
  | OpHas key => snd (Dist.has now key c)
  | OpDelete key => snd (delete key c)
  | OpClear => clear c
  end.

Definition run (calls : list (Z * Op K V)) (c : FIFOCache K V)
  : FIFOCache K V :=
  fold_left (fun st call => step call st) calls c.

(** A cache that exists: the constructor returned it and some calls were
    made on it since. *)
Definition reachable (c : FIFOCache K V) : Prop :=
  exists capacity ttlMs c0 calls,
    constructor capacity ttlMs = inr c0 /\ run calls c0 = c.

(** The invariant of a cache that exists. *)
Definition wf (c : FIFOCache K V) : Prop :=
  NoDup (Map_keys (_cache c)) /\
  isNaturalNumber (_capacity c) = true /\
  isNaturalNumber (_ttlMs c) = true /\
  num_gt (of_nat (size c)) (_capacity c) = false.

Definition same_key (a b : K) : bool := if eq_dec a b then true else false.

(** The call deletes the entry of [key], overwrites it, or evicts it for
    capacity.  A [get] or [has] never does, whatever it prunes. *)
Definition disturbs (key : K) (call : Z * Op K V) (c : FIFOCache K V) : bool :=
  let (now, op) := call in
  match op with
  | OpSet k v =>
      same_key k key ||
      match evictedKey now k v c with
      | Some oldestKey => same_key oldestKey key
      | None => false
      end
  | OpDelete k => same_key k key
  | OpClear => true
  | OpGet _ | OpHas _ => false
  end.

Fixpoint undisturbed (key : K) (calls : list (Z * Op K V)) (c : FIFOCache K V)
  : bool :=
  match calls with
  | [] => true
  | call :: rest =>
      negb (disturbs key call c) && undisturbed key rest (step call c)
  end.

(** The clock never runs backwards between [t0], the calls, and [now]. *)
Fixpoint clock_monotone (t0 : Z) (calls : list (Z * Op K V)) (now : Z) : bool :=
  match calls with
  | [] => (t0 <=? now)%Z
  | (t, _) :: rest => (t0 <=? t)%Z && clock_monotone t rest now
  end.

(** The entry that [set(key, v)] stores when called at [now]. *)
Definition entry_of (ttlMs : number) (call : Z * K * V) : K * ValueHolder V :=
  let '(now, key, v) := call in
  (key, {| value := v; expirationTimestamp := num_add (of_Z now) ttlMs |}).

Definition call_key (call : Z * K * V) : K := snd (fst call).

Definition set_call (call : Z * K * V) : Z * Op K V :=
  let '(now, key, v) := call in (now, OpSet key v).

End Calls.

(** ** A worked scenario

    Capacity 3 and a TTL of 1000 ms, with numeric keys and values: keys
    1, 2, 3 are set at time 0, key 4 is set at time 10. *)

Definition scenario_new : FIFOCache nat nat :=
  {| _capacity := of_nat 3; _ttlMs := of_nat 1000; _cache := [] |}.

Definition scenario_sets : list (Z * nat * nat) :=
  [(0%Z, 1%nat, 1%nat); (0%Z, 2%nat, 2%nat); (0%Z, 3%nat, 3%nat)].

Definition scenario_full : FIFOCache nat nat :=
  run (map set_call scenario_sets) scenario_new.

Definition scenario_next : FIFOCache nat nat :=
  set 10 4%nat 4%nat scenario_full.

(** The reads made at time [now] on keys 2, 3, 4, in that order. *)
Definition scenario_reads (now : Z) : list (Z * Op nat nat) :=
  [(now, OpGet 2%nat); (now, OpGet 3%nat); (now, OpGet 4%nat)].

(** ** The test helper [createPopulatedTestCache]

    fifo-ttl-cache.test.ts runs under jest's fake timers: the clock
    stands still at some reading [now] while the helper runs.  A failed
    [expect] aborts the helper. *)

Inductive Outcome (A : Type) : Type :=
| Returned : A -> Outcome A
| Threw : Error -> Outcome A
| ExpectationFailed : Outcome A.

Arguments Threw {A} _.
Arguments ExpectationFailed {A}.

Definition MOCK_CAPACITY : nat := 144.
Definition MOCK_TTL_MS : Z := 60 * 1000.

(** The loop [for (let key = 1; key <= MOCK_CAPACITY; ++key)], over the
    keys still to come. *)
Fixpoint populate (now : Z) (keys : list nat) (cache : FIFOCache nat nat)
  : Outcome (FIFOCache nat nat) :=
  match keys with
  | [] => Returned cache
  | key :: rest =>
      let value := key in
      let cache' := set now key value cache in
      let numberOfInsertedItems := key in
      if Nat.eqb (size cache') numberOfInsertedItems
      then populate now rest cache'
      else ExpectationFailed
  end.

Definition createPopulatedTestCache (now : Z) : Outcome (FIFOCache nat nat) :=
  match constructor (of_nat MOCK_CAPACITY) (of_Z MOCK_TTL_MS) with
  | inl e => Threw e
  | inr cache => populate now (seq 1 MOCK_CAPACITY) cache
  end.

(** [createAllKeys]: the keys 1, ..., [MOCK_CAPACITY]. *)
Definition createAllKeys : list nat :=
  map (fun index => index + 1)%nat (seq 0 MOCK_CAPACITY).

(** * Properties *)

Unset Implicit Arguments.

(** ** Numbers *)

Lemma Qle_bool_inject_Z (a b : Z) :
  Qle_bool (inject_Z a) (inject_Z b) = (a <=? b)%Z.
Proof.
  unfold Qle_bool, inject_Z. simpl. now rewrite !Z.mul_1_r.
Qed.

Lemma num_gt_of_nat (a b : nat) : num_gt (of_nat a) (of_nat b) = (b <? a)%nat.
Proof.
  unfold of_nat, of_Z. simpl. rewrite Qle_bool_inject_Z.
  destruct (Z.leb_spec (Z.of_nat a) (Z.of_nat b));
    destruct (Nat.ltb_spec b a); simpl; try reflexivity; lia.
Qed.

Lemma num_gt_mono (n m : nat) (cap : number) :
  (n <= m)%nat -> num_gt (of_nat m) cap = false -> num_gt (of_nat n) cap = false.
Proof.
  intros Hnm. destruct cap as [ | | | q]; simpl; try congruence.
  rewrite !negb_false_iff, !Qle_bool_iff. intros H.
  apply Qle_trans with (inject_Z (Z.of_nat m)); [ | exact H].
  rewrite <- Zle_Qle. lia.
Qed.

Lemma isNaturalNumber_Fin (q : Q) :
  isNaturalNumber (Fin q) = true <->
  exists n : Z, (1 <= n)%Z /\ q == inject_Z n.
Proof.
  unfold isNaturalNumber. cbn [Math_floor of_Z num_ge num_strict_eq].
  rewrite andb_true_iff, Qle_bool_inject_Z, Z.leb_le, Qeq_bool_iff.
  split.
  - intros [H1 H2]. exists (Qfloor q). split; [exact H1 | now symmetry].
  - intros [n [H1 H2]].
    assert (Hf : Qfloor q = n).
    { rewrite (Qfloor_comp _ _ H2). apply Qfloor_Z. }
    rewrite Hf. split; [exact H1 | now symmetry].
Qed.

Lemma isNaturalNumber_cases (x : number) :
  isNaturalNumber x = true ->
  x = PInf \/ exists q n, x = Fin q /\ (1 <= n)%Z /\ q == inject_Z n.
Proof.
  destruct x as [ | | | q]; try (cbv; discriminate).
  - now left.
  - intros H. right. apply isNaturalNumber_Fin in H.
    destruct H as [n [H1 H2]]. now exists q, n.
Qed.

Lemma isNaturalNumber_of_nat (n : nat) :
  isNaturalNumber (of_nat n) = true <-> (1 <= n)%nat.
Proof.
  unfold of_nat, of_Z. rewrite isNaturalNumber_Fin. split.
  - intros [z [H1 H2]]. rewrite inject_Z_injective in H2. lia.
  - intros H. exists (Z.of_nat n). split; [lia | reflexivity].
Qed.

Lemma natural_ge_one (cap : number) :
  isNaturalNumber cap = true -> num_gt (of_nat 1) cap = false.
Proof.
  intros H. destruct (isNaturalNumber_cases _ H) as [-> | [q [n [-> [H1 H2]]]]].
  - reflexivity.
  - simpl. rewrite negb_false_iff, Qle_bool_iff, H2, <- Zle_Qle. exact H1.
Qed.

Lemma num_lt_not_ge (a b : number) : num_lt a b = true -> num_ge a b = false.
Proof.
  unfold num_lt.
  destruct a as [ | | | x], b as [ | | | y]; simpl; try congruence.
  rewrite negb_true_iff. intros H.
  destruct (Qle_bool y x) eqn:E; congruence.
Qed.

Lemma num_lt_or_ge (a b : number) :
  a <> NaN -> b <> NaN -> num_lt a b = true \/ num_ge a b = true.
Proof.
  unfold num_lt.
  destruct a as [ | | | x], b as [ | | | y]; simpl; try congruence; auto.
  intros _ _. destruct (Qle_bool y x); auto.
Qed.

Lemma natural_add_not_NaN (now : Z) (ttl : number) :
  isNaturalNumber ttl = true -> num_add (of_Z now) ttl <> NaN.
Proof.
  intros H. destruct ttl as [ | | | q]; simpl; discriminate.
Qed.

Lemma num_ge_later (t t' : Z) (x : number) :
  (t <= t')%Z -> num_ge (of_Z t) x = true -> num_ge (of_Z t') x = true.
Proof.
  intros Hle. destruct x as [ | | | q]; simpl; auto.
  rewrite !Qle_bool_iff. intros H.
  apply Qle_trans with (inject_Z t); [exact H | ].
  now rewrite <- Zle_Qle.
Qed.

Lemma isNaturalNumber_NaN : isNaturalNumber NaN = false.
Proof. reflexivity. Qed.

Lemma isNaturalNumber_NInf : isNaturalNumber NInf = false.
Proof. reflexivity. Qed.

Lemma isNaturalNumber_PInf : isNaturalNumber PInf = true.
Proof. reflexivity. Qed.

#[global] Opaque num_gt num_ge num_add of_nat of_Z isNaturalNumber.

(** ** The insertion-ordered map *)

Open Scope nat_scope.

Ltac case_key :=
  match goal with
  | |- context [eq_dec ?a ?b] => destruct (eq_dec a b); subst; simpl
  | H : context [eq_dec ?a ?b] |- _ => destruct (eq_dec a b); subst; simpl in H
  end.

Section MapFacts.
Context {K V : Type} {K_eq : EqDec K}.
Implicit Types (m : JSMap K V) (key k : K) (h : ValueHolder V).

Lemma Map_keys_app m1 m2 : Map_keys (m1 ++ m2) = Map_keys m1 ++ Map_keys m2.
Proof. apply map_app. Qed.

Lemma Map_get_None key m : Map_get key m = None <-> ~ In key (Map_keys m).
Proof.
  induction m as [ | [k h] m IH]; simpl.
  - tauto.
  - case_key.
    + split; [discriminate | intros H; exfalso; auto].
    + rewrite IH. tauto.
Qed.

Lemma Map_get_Some_In key m h : Map_get key m = Some h -> In key (Map_keys m).
Proof.
  intros H. destruct (in_dec eq_dec key (Map_keys m)) as [Hin | Hout]; auto.
  apply Map_get_None in Hout. congruence.
Qed.

Lemma Map_get_In key m : In key (Map_keys m) -> exists h, Map_get key m = Some h.
Proof.
  intros H. destruct (Map_get key m) as [h | ] eqn:E; eauto.
  apply Map_get_None in E. contradiction.
Qed.

Lemma Map_delete_absent key m :
  ~ In key (Map_keys m) -> Map_delete key m = (false, m).
Proof.
  induction m as [ | [k h] m IH]; simpl; intros H; auto.
  case_key.
  - exfalso; auto.
  - rewrite IH by tauto. reflexivity.
Qed.

Lemma Map_delete_split key m :
  In key (Map_keys m) ->
  exists l1 h l2,
    m = l1 ++ (key, h) :: l2 /\ ~ In key (Map_keys l1) /\
    Map_get key m = Some h /\ Map_delete key m = (true, l1 ++ l2).
Proof.
  induction m as [ | [k h] m IH]; simpl; intros H; [contradiction | ].
  destruct (eq_dec k key) as [-> | Hne].
  - exists [], h, m. simpl. auto.
  - destruct H as [H | H]; [contradiction | ].
    destruct (IH H) as [l1 [h' [l2 [E1 [E2 [E3 E4]]]]]].
    exists ((k, h) :: l1), h', l2. rewrite E4. simpl. subst m.
    repeat split; auto. tauto.
Qed.

Lemma Map_delete_existed key m :
  fst (Map_delete key m) = true <-> In key (Map_keys m).
Proof.
  split.
  - intros H. destruct (in_dec eq_dec key (Map_keys m)) as [Hin | Hout]; auto.
    rewrite (Map_delete_absent _ _ Hout) in H. discriminate.
  - intros H. destruct (Map_delete_split _ _ H) as [l1 [h [l2 [_ [_ [_ E]]]]]].
    now rewrite E.
Qed.

Lemma Map_delete_keys_incl key k m :
  In k (Map_keys (snd (Map_delete key m))) -> In k (Map_keys m).
Proof.
  induction m as [ | [k0 h] m IH]; simpl; auto.
  case_key; auto.
  destruct (Map_delete key m) as [b r]. simpl in *. tauto.
Qed.

Lemma Map_delete_NoDup key m :
  NoDup (Map_keys m) -> NoDup (Map_keys (snd (Map_delete key m))).
Proof.
  induction m as [ | [k h] m IH]; simpl; auto.
  intros H. inversion H as [ | ? ? Hk Hm]; subst.
  case_key; auto.
  pose proof (Map_delete_keys_incl key k m) as Hincl.
  specialize (IH Hm).
  destruct (Map_delete key m) as [b r]. simpl in *.
  constructor; auto.
Qed.

Lemma Map_delete_gone key m :
  NoDup (Map_keys m) -> ~ In key (Map_keys (snd (Map_delete key m))).
Proof.
  induction m as [ | [k h] m IH]; simpl; auto.
  intros H. inversion H as [ | ? ? Hk Hm]; subst.
  case_key; auto.
  specialize (IH Hm).
  destruct (Map_delete key m) as [b r]. simpl in *. tauto.
Qed.

Lemma Map_get_delete_other key k m :
  k <> key -> Map_get k (snd (Map_delete key m)) = Map_get k m.
Proof.
  intros Hne. induction m as [ | [k0 h] m IH]; simpl; auto.
  destruct (eq_dec k0 key) as [-> | Hk0]; simpl.
  - destruct (eq_dec key k); [congruence | reflexivity].
  - destruct (Map_delete key m) as [b r]. simpl in *. now rewrite IH.
Qed.

Lemma Map_delete_size key m :
  Map_size m =
  (if fst (Map_delete key m) then 1 else 0) + Map_size (snd (Map_delete key m)).
Proof.
  unfold Map_size. induction m as [ | [k h] m IH]; simpl; auto.
  case_key; auto.
  destruct (Map_delete key m) as [[ | ] r]; simpl in *; lia.
Qed.

Lemma Map_set_absent key h m :
  ~ In key (Map_keys m) -> Map_set key h m = m ++ [(key, h)].
Proof.
  induction m as [ | [k h0] m IH]; simpl; intros H; auto.
  case_key.
  - exfalso; auto.
  - rewrite IH by tauto. reflexivity.
Qed.

Lemma Map_get_app key m1 m2 :
  Map_get key (m1 ++ m2) =
  match Map_get key m1 with Some h => Some h | None => Map_get key m2 end.
Proof.
  induction m1 as [ | [k h] m1 IH]; simpl; auto.
  case_key; auto.
Qed.

Lemma Map_delete_head key h m : Map_delete key ((key, h) :: m) = (true, m).
Proof. simpl. destruct (eq_dec key key); [reflexivity | congruence]. Qed.

End MapFacts.

(** ** The invariant of the cache *)

Section CacheFacts.
Context {K V : Type} {K_eq : EqDec K}.
Implicit Types (c : FIFOCache K V) (key k : K) (v : V) (now : Z).

Lemma set_inserted_app now key v c :
  NoDup (Map_keys (_cache c)) ->
  set_inserted now key v c =
  snd (Map_delete key (_cache c)) ++ [entry_of (_ttlMs c) (now, key, v)].
Proof.
  intros Hnd. unfold set_inserted, entry_of.
  apply Map_set_absent. now apply Map_delete_gone.
Qed.

(** What [set] does to the map, by cases on the capacity test. *)
Lemma set_cases now key v c :
  wf c ->
  let rest := snd (Map_delete key (_cache c)) in
  let e := entry_of (_ttlMs c) (now, key, v) in
  (evictedKey now key v c = None /\
   num_gt (of_nat (S (Map_size rest))) (_capacity c) = false /\
   _cache (set now key v c) = rest ++ [e])
  \/
  (exists k0 h0 rest',
     rest = (k0, h0) :: rest' /\ k0 <> key /\
     evictedKey now key v c = Some k0 /\
     num_gt (of_nat (S (Map_size rest))) (_capacity c) = true /\
     _cache (set now key v c) = rest' ++ [e]).
Proof.
  intros [Hnd [Hcap [_ Hsize]]] rest e.
  assert (Hgone : ~ In key (Map_keys rest)) by now apply Map_delete_gone.
  unfold evictedKey, set.
  rewrite (set_inserted_app now key v c Hnd). fold rest e.
  assert (Hlen : Map_size (rest ++ [e]) = S (Map_size rest)).
  { unfold Map_size. rewrite length_app. simpl. lia. }
  rewrite Hlen.
  destruct (num_gt (of_nat (S (Map_size rest))) (_capacity c)) eqn:Egt.
  - right. destruct rest as [ | [k0 h0] rest'].
    + change (S (Map_size [])) with 1 in Egt.
      rewrite (natural_ge_one _ Hcap) in Egt. discriminate.
    + exists k0, h0, rest'. simpl in Hgone.
      assert (Hne : k0 <> key) by tauto.
      unfold Map_first_key. simpl.
      destruct (eq_dec k0 k0); [ | congruence]. simpl. auto.
  - left. auto.
Qed.

(** [set] is the insertion followed by the deletion of [evictedKey]. *)
Lemma set_by_evictedKey now key v c :
  _cache (set now key v c) =
  match evictedKey now key v c with
  | Some oldestKey => snd (Map_delete oldestKey (set_inserted now key v c))
  | None => set_inserted now key v c
  end.
Proof.
  unfold set, evictedKey.
  destruct (num_gt _ _); [destruct (Map_first_key _) | ]; reflexivity.
Qed.

Lemma wf_constructor capacity ttlMs c :
  constructor capacity ttlMs = inr c -> wf c /\ _cache c = [].
Proof.
  unfold constructor.
  destruct (isNaturalNumber capacity) eqn:Ecap; simpl; [ | discriminate].
  destruct (isNaturalNumber ttlMs) eqn:Ettl; simpl; [ | discriminate].
  intros H. injection H as <-. unfold wf, size. simpl.
  repeat split; auto using NoDup_nil.
  apply num_gt_mono with 1; [lia | now apply natural_ge_one].
Qed.

Lemma wf_with_cache c m :
  wf c -> NoDup (Map_keys m) -> Map_size m <= size c -> wf (with_cache c m).
Proof.
  intros [Hnd [Hcap [Httl Hsize]]] Hm Hle. unfold wf, size. simpl.
  repeat split; auto. eapply num_gt_mono; eauto.
Qed.

Lemma wf_pruned key c : wf c -> wf (with_cache c (snd (Map_delete key (_cache c)))).
Proof.
  intros Hwf. apply wf_with_cache; auto.
  - apply Map_delete_NoDup. apply Hwf.
  - unfold size. rewrite (Map_delete_size key (_cache c)). lia.
Qed.

Lemma NoDup_keys_snoc (m : JSMap K V) key (h : ValueHolder V) :
  NoDup (Map_keys m) -> ~ In key (Map_keys m) -> NoDup (Map_keys (m ++ [(key, h)])).
Proof.
  intros Hnd Hout. rewrite Map_keys_app. simpl.
  apply NoDup_app; auto.
  - constructor; [simpl; tauto | constructor].
  - intros x Hx [<- | []]. contradiction.
Qed.

Lemma set_config now key v c :
  _capacity (set now key v c) = _capacity c /\
  _ttlMs (set now key v c) = _ttlMs c.
Proof.
  unfold set.
  destruct (num_gt _ _); [destruct (Map_first_key _) | ]; split; reflexivity.
Qed.

Lemma get_config now key c :
  _capacity (snd (get now key c)) = _capacity c /\
  _ttlMs (snd (get now key c)) = _ttlMs c.
Proof.
  unfold get. destruct (Map_get _ _); auto.
  destruct (num_ge _ _); split; reflexivity.
Qed.

Lemma wf_set now key v c : wf c -> wf (set now key v c).
Proof.
  intros Hwf.
  pose proof (set_cases now key v c Hwf) as Hcases. cbv zeta in Hcases.
  pose proof (Map_delete_NoDup key _ (proj1 Hwf)) as Hnd.
  pose proof (Map_delete_gone key _ (proj1 Hwf)) as Hgone.
  pose proof (Map_delete_size key (_cache c)) as Hsz.
  destruct Hwf as [Hnd0 [Hcap [Httl Hsize]]].
  destruct (set_config now key v c) as [E1 E2]. unfold wf, size. rewrite E1, E2.
  destruct Hcases as [[_ [Hgt ->]] | [k0 [h0 [rest' [Hr [Hne [_ [_ ->]]]]]]]].
  - repeat split; auto.
    + now apply NoDup_keys_snoc.
    + unfold Map_size in *. rewrite length_app. simpl.
      now rewrite Nat.add_comm.
  - rewrite Hr in *. simpl in Hnd, Hgone.
    inversion Hnd as [ | ? ? Hk0 Hrest]; subst.
    repeat split; auto.
    + apply NoDup_keys_snoc; tauto.
    + apply num_gt_mono with (size c); auto.
      unfold size, Map_size in *. rewrite length_app. simpl in *. lia.
Qed.

Lemma has_state now key c : snd (Dist.has now key c) = snd (get now key c).
Proof.
  unfold Dist.has, Dist._getExpiringEntry, get.
  destruct (Map_get key (_cache c)) as [h | ]; auto.
  destruct (num_ge _ _); auto.
Qed.

Lemma wf_get now key c : wf c -> wf (snd (get now key c)).
Proof.
  intros Hwf. unfold get.
  destruct (Map_get key (_cache c)) as [h | ]; auto.
  destruct (num_ge _ _); simpl; auto using wf_pruned.
Qed.

Lemma wf_delete key c : wf c -> wf (snd (delete key c)).
Proof.
  intros Hwf. pose proof (wf_pruned key c Hwf) as H. unfold delete.
  destruct (Map_delete key (_cache c)); exact H.
Qed.

Lemma wf_clear c : wf c -> wf (clear c).
Proof.
  intros Hwf. apply wf_with_cache; auto.
  - constructor.
  - simpl. lia.
Qed.

Lemma wf_step call c : wf c -> wf (step call c).
Proof.
  intros Hwf. destruct call as [now [key v | key | key | key | ]]; simpl.
  - now apply wf_set.
  - now apply wf_get.
  - rewrite has_state. now apply wf_get.
  - now apply wf_delete.
  - now apply wf_clear.
Qed.

Lemma wf_run calls c : wf c -> wf (run calls c).
Proof.
  revert c. induction calls as [ | call calls IH]; simpl; intros c Hwf; auto.
  apply IH. now apply wf_step.
Qed.

Lemma reachable_wf c : reachable c -> wf c.
Proof.
  intros [capacity [ttlMs [c0 [calls [Hnew <-]]]]].
  apply wf_run. eapply wf_constructor; eauto.
Qed.

Lemma step_config call c :
  _capacity (step call c) = _capacity c /\ _ttlMs (step call c) = _ttlMs c.
Proof.
  destruct call as [now [key v | key | key | key | ]]; simpl; auto.
  - apply set_config.
  - apply get_config.
  - rewrite has_state. apply get_config.
  - unfold delete. destruct (Map_delete _ _); auto.
Qed.

Lemma run_app calls1 calls2 c :
  run (calls1 ++ calls2) c = run calls2 (run calls1 c).
Proof. apply fold_left_app. Qed.

Lemma reachable_step call c : reachable c -> reachable (step call c).
Proof.
  intros [capacity [ttlMs [c0 [calls [Hnew <-]]]]].
  exists capacity, ttlMs, c0, (calls ++ [call]). split; auto.
  now rewrite run_app.
Qed.

End CacheFacts.

(** ** Sequences of calls *)

Section CallFacts.
Context {K V : Type} {K_eq : EqDec K}.
Implicit Types (c : FIFOCache K V) (key k : K) (v : V) (now : Z).

Lemma run_config (calls : list (Z * Op K V)) c :
  _capacity (run calls c) = _capacity c /\ _ttlMs (run calls c) = _ttlMs c.
Proof.
  revert c. induction calls as [ | call calls IH]; simpl; intros c; auto.
  destruct (IH (step call c)) as [E1 E2].
  destruct (step_config call c) as [E3 E4]. split; congruence.
Qed.

Lemma constructor_config capacity ttlMs c :
  @constructor K V capacity ttlMs = inr c ->
  _capacity c = capacity /\ _ttlMs c = ttlMs.
Proof.
  unfold constructor.
  destruct (negb (isNaturalNumber capacity)); [discriminate | ].
  destruct (negb (isNaturalNumber ttlMs)); [discriminate | ].
  intros H. injection H as <-. auto.
Qed.

Lemma size_le_of_nat c (N : nat) :
  _capacity c = of_nat N -> num_gt (of_nat (size c)) (_capacity c) = false ->
  size c <= N.
Proof.
  intros -> H. rewrite num_gt_of_nat in H. now apply Nat.ltb_ge in H.
Qed.

End CallFacts.

(** ** Capacity *)

Section Capacity.
Context {K V : Type} {K_eq : EqDec K}.

(** C2. Whatever calls are made on a constructed cache, after the last
    of them (hence after each of them) the test [size > _capacity] is
    false; when the capacity is the positive integer [N], [size <= N].
    In particular this holds right after any further [set]. *)
Theorem capacity_invariant :
  forall (capacity ttlMs : number) (c0 : FIFOCache K V)
         (calls : list (Z * Op K V)),
    constructor capacity ttlMs = inr c0 ->
    let c := run calls c0 in
    num_gt (of_nat (size c)) capacity = false /\
    (forall N : nat, capacity = of_nat N ->
       size c <= N /\
       forall now key v, size (set now key v c) <= N).
Proof.
  intros capacity ttlMs c0 calls Hnew c.
  destruct (constructor_config _ _ _ Hnew) as [Hcap _].
  destruct (run_config calls c0) as [Hcap' _]. fold c in Hcap'.
  assert (Hwf : wf c).
  { apply wf_run. eapply wf_constructor; eauto. }
  assert (Hc : _capacity c = capacity) by congruence.
  split.
  - rewrite <- Hc. apply Hwf.
  - intros N HN. split.
    + apply size_le_of_nat; [congruence | apply Hwf].
    + intros now key v.
      pose proof (wf_set now key v c Hwf) as Hwf'.
      destruct (set_config now key v c) as [E _].
      apply size_le_of_nat; [congruence | apply Hwf'].
Qed.

End Capacity.

(** ** FIFO order *)

Section Fifo.
Context {K V : Type} {K_eq : EqDec K}.
Implicit Types (c : FIFOCache K V) (key k : K) (v : V) (now : Z).

Lemma entry_of_key ttlMs (call : Z * K * V) :
  fst (entry_of ttlMs call) = call_key call.
Proof. now destruct call as [[t k] v]. Qed.

Lemma Map_keys_entries ttlMs (ins : list (Z * K * V)) :
  Map_keys (map (entry_of ttlMs) ins) = map call_key ins.
Proof.
  unfold Map_keys. rewrite map_map. apply map_ext, entry_of_key.
Qed.

Lemma skipn_S_tl {A : Type} (d : nat) (l : list A) :
  skipn (S d) l = tl (skipn d l).
Proof.
  revert l. induction d as [ | d IH]; intros [ | a l]; simpl; auto.
  now rewrite <- IH.
Qed.

Lemma In_skipn {A : Type} (d : nat) (l : list A) (a : A) :
  In a (skipn d l) -> In a l.
Proof.
  intros H. rewrite <- (firstn_skipn d l). apply in_or_app. now right.
Qed.

(** After any run of [set]s on distinct keys, a cache of capacity [N]
    holds the entries of the last [N] of them, in order of insertion. *)
Lemma fifo_contents (N : nat) ttlMs c0 (ins : list (Z * K * V)) :
  constructor (of_nat N) ttlMs = inr c0 ->
  NoDup (map call_key ins) ->
  _cache (run (map set_call ins) c0) =
  skipn (length ins - N) (map (entry_of ttlMs) ins).
Proof.
  intros Hnew. destruct (wf_constructor _ _ _ Hnew) as [Hwf0 Hempty].
  destruct (constructor_config _ _ _ Hnew) as [Hcap Httl].
  assert (HN : 1 <= N).
  { apply isNaturalNumber_of_nat. rewrite <- Hcap. apply Hwf0. }
  induction ins as [ | [[now key] v] ins IH] using rev_ind; intros Hnd.
  - simpl. exact Hempty.
  - rewrite map_app in Hnd. simpl in Hnd.
    apply NoDup_remove in Hnd. rewrite app_nil_r in Hnd.
    destruct Hnd as [Hnd Hfresh]. specialize (IH Hnd).
    rewrite map_app, run_app. simpl.
    set (c := run (map set_call ins) c0) in *.
    assert (Hwf : wf c) by now apply wf_run.
    destruct (run_config (map set_call ins) c0) as [Hcap' Httl'].
    fold c in Hcap', Httl'.
    assert (Habsent : ~ In key (Map_keys (_cache c))).
    { rewrite IH. intros Hin. apply Hfresh.
      rewrite <- (Map_keys_entries ttlMs). unfold Map_keys in *.
      rewrite <- (firstn_skipn (length ins - N) (map (entry_of ttlMs) ins)).
      rewrite map_app. apply in_or_app. now right. }
    assert (Hlen : Map_size (_cache c) = length ins - (length ins - N)).
    { unfold Map_size. rewrite IH, length_skipn, length_map. reflexivity. }
    pose proof (set_cases now key v c Hwf) as Hcases. cbv zeta in Hcases.
    rewrite (Map_delete_absent key _ Habsent) in Hcases. simpl snd in Hcases.
    rewrite Httl', Httl, Hcap', Hcap, num_gt_of_nat in Hcases.
    rewrite map_app, length_app, skipn_app, length_map. simpl length.
    destruct Hcases as [[_ [Hgt ->]] | [k0 [h0 [rest' [Hr [_ [_ [Hgt ->]]]]]]]].
    + apply Nat.ltb_ge in Hgt.
      replace (length ins + 1 - N) with 0 by lia.
      replace (length ins - N) with 0 in IH by lia.
      simpl. now rewrite IH.
    + apply Nat.ltb_lt in Hgt.
      replace (length ins + 1 - N) with (S (length ins - N)) by lia.
      replace (S (length ins - N) - length ins) with 0 by lia.
      rewrite skipn_S_tl, <- IH, Hr. reflexivity.
Qed.

(** C3. In a cache of capacity [N] filled by [set]s on distinct keys,
    the [set] of the [(N+i)]-th distinct key ([i >= 1]) finds the [i]-th
    key oldest, evicts exactly that entry whatever its expiration time,
    keeps every other entry in place and appends the new one. *)
Theorem fifo_eviction_order :
  forall (N i : nat) (ttlMs : number) (c0 : FIFOCache K V)
         (ins : list (Z * K * V)) now key v,
    constructor (of_nat N) ttlMs = inr c0 ->
    NoDup (map call_key (ins ++ [(now, key, v)])) ->
    1 <= i ->
    length ins + 1 = N + i ->
    let before := run (map set_call ins) c0 in
    exists ith rest,
      nth_error ins (i - 1) = Some ith /\
      _cache before = entry_of ttlMs ith :: rest /\
      rest = skipn i (map (entry_of ttlMs) ins) /\
      Map_size (_cache before) = N /\
      evictedKey now key v before = Some (call_key ith) /\
      _cache (set now key v before) = rest ++ [entry_of ttlMs (now, key, v)].
Proof.
  intros N i ttlMs c0 ins now key v Hnew Hnd Hi Hlen before.
  assert (HN : 1 <= N).
  { apply isNaturalNumber_of_nat.
    destruct (constructor_config _ _ _ Hnew) as [<- _].
    eapply wf_constructor; eauto. }
  assert (Hnd' : NoDup (map call_key ins)).
  { rewrite map_app in Hnd. now apply NoDup_app_remove_r in Hnd. }
  pose proof (fifo_contents N ttlMs c0 ins Hnew Hnd') as Hbefore.
  pose proof (fifo_contents N ttlMs c0 _ Hnew Hnd) as Hafter.
  rewrite map_app, run_app in Hafter. simpl in Hafter. fold before in Hbefore, Hafter.
  rewrite length_app in Hafter. simpl length in Hafter.
  replace (length ins - N) with (i - 1) in Hbefore by lia.
  replace (length ins + 1 - N) with i in Hafter by lia.
  destruct (nth_error ins (i - 1)) as [ith | ] eqn:Enth.
  2:{ apply nth_error_None in Enth. lia. }
  exists ith, (skipn i (map (entry_of ttlMs) ins)).
  assert (Hsplit : skipn (i - 1) (map (entry_of ttlMs) ins) =
                   entry_of ttlMs ith :: skipn i (map (entry_of ttlMs) ins)).
  { replace i with (S (i - 1)) at 2 by lia.
    pose proof (map_nth_error (entry_of ttlMs) _ _ Enth) as Hn.
    revert Hn. generalize (map (entry_of ttlMs) ins) (i - 1).
    intros l n. revert l. induction n as [ | n IHn]; intros [ | a l]; simpl;
      try discriminate.
    - intros H. now injection H as ->.
    - apply IHn. }
  assert (Hset : _cache (set now key v before) =
                 skipn i (map (entry_of ttlMs) ins)
                 ++ [entry_of ttlMs (now, key, v)]).
  { rewrite Hafter, map_app, skipn_app, length_map.
    replace (i - length ins) with 0 by lia. reflexivity. }
  assert (Hsize : Map_size (_cache before) = N).
  { unfold Map_size. rewrite Hbefore, length_skipn, length_map. lia. }
  repeat split; auto.
  - now rewrite Hbefore.
  - unfold evictedKey.
    assert (Hwf : wf before).
    { apply wf_run. eapply wf_constructor; eauto. }
    assert (Habsent : ~ In key (Map_keys (_cache before))).
    { rewrite map_app in Hnd. simpl in Hnd. apply NoDup_remove_2 in Hnd.
      rewrite app_nil_r in Hnd. intros Hin. apply Hnd.
      rewrite Hbefore in Hin. rewrite <- (Map_keys_entries ttlMs).
      unfold Map_keys in *. apply in_map_iff in Hin.
      destruct Hin as [x [Hx1 Hx2]]. apply in_map_iff. exists x. split; auto.
      eapply In_skipn; eauto. }
    rewrite (set_inserted_app now key v before (proj1 Hwf)).
    rewrite (Map_delete_absent key _ Habsent). simpl snd.
    destruct (run_config (map set_call ins) c0) as [Hcap' _].
    destruct (constructor_config _ _ _ Hnew) as [Hcap _].
    fold before in Hcap'. rewrite Hcap', Hcap.
    unfold Map_size in *. rewrite length_app, Hsize. simpl length.
    rewrite num_gt_of_nat.
    replace (N <? N + 1) with true by (symmetry; apply Nat.ltb_lt; lia).
    rewrite Hbefore, Hsplit. unfold Map_first_key. simpl.
    now rewrite entry_of_key.
Qed.

End Fifo.

(** ** Updating a stored key *)

Section Update.
Context {K V : Type} {K_eq : EqDec K}.
Implicit Types (c : FIFOCache K V) (key k : K) (v : V) (now : Z).

(** [set] on a key that is stored: the entry leaves its place, the new
    one is appended, and the capacity test fails. *)
Lemma set_existing now key v c :
  wf c -> In key (Map_keys (_cache c)) ->
  exists l1 h l2,
    _cache c = l1 ++ (key, h) :: l2 /\
    ~ In key (Map_keys (l1 ++ l2)) /\
    set_inserted now key v c = l1 ++ l2 ++ [entry_of (_ttlMs c) (now, key, v)] /\
    num_gt (of_nat (Map_size (set_inserted now key v c))) (_capacity c) = false /\
    evictedKey now key v c = None /\
    _cache (set now key v c) = l1 ++ l2 ++ [entry_of (_ttlMs c) (now, key, v)].
Proof.
  intros Hwf Hin.
  destruct (Map_delete_split key _ Hin) as [l1 [h [l2 [E1 [E2 [E3 E4]]]]]].
  pose proof (Map_delete_gone key _ (proj1 Hwf)) as Hgone.
  pose proof (set_inserted_app now key v c (proj1 Hwf)) as Hins.
  rewrite E4 in Hgone, Hins. simpl snd in Hgone, Hins.
  assert (Hgt : num_gt (of_nat (Map_size (set_inserted now key v c)))
                  (_capacity c) = false).
  { replace (Map_size (set_inserted now key v c)) with (size c).
    - apply Hwf.
    - unfold size, Map_size. rewrite Hins, E1, !length_app. simpl. lia. }
  exists l1, h, l2. rewrite <- app_assoc in Hins.
  unfold evictedKey, set. rewrite Hgt. simpl. auto 10.
Qed.

(** C5. [set] on a key that is stored replaces its value, sets its
    expiration to [now + _ttlMs], keeps [size], and moves the key from
    its old place to the youngest end; the other entries keep their
    order. *)
Theorem set_existing_key_updates :
  forall c now key v,
    reachable c ->
    In key (Map_keys (_cache c)) ->
    let c' := set now key v c in
    let e := {| value := v;
                expirationTimestamp := num_add (of_Z now) (_ttlMs c) |} in
    Map_get key (_cache c') = Some e /\
    size c' = size c /\
    exists l1 old l2,
      _cache c = l1 ++ (key, old) :: l2 /\
      _cache c' = l1 ++ l2 ++ [(key, e)].
Proof.
  intros c now key v Hreach Hin c' e.
  destruct (set_existing now key v c (reachable_wf _ Hreach) Hin)
    as [l1 [h [l2 [E1 [Hout [_ [_ [_ E2]]]]]]]].
  fold c' in E2. change (entry_of (_ttlMs c) (now, key, v)) with (key, e) in E2.
  repeat split.
  - rewrite E2, app_assoc, Map_get_app.
    apply Map_get_None in Hout. rewrite Hout. simpl.
    destruct (eq_dec key key); congruence.
  - unfold size, Map_size. rewrite E1, E2, !length_app. simpl. lia.
  - exists l1, h, l2. auto.
Qed.

(** C9. [set] on a key that is stored evicts nothing: after the
    re-insertion the test [size > _capacity] is false, so the capacity
    branch is not taken, and every other key keeps its entry. *)
Theorem set_existing_key_no_eviction :
  forall c now key v,
    reachable c ->
    In key (Map_keys (_cache c)) ->
    num_gt (of_nat (Map_size (set_inserted now key v c))) (_capacity c) = false /\
    evictedKey now key v c = None /\
    _cache (set now key v c) = set_inserted now key v c /\
    forall k, k <> key ->
      Map_get k (_cache (set now key v c)) = Map_get k (_cache c).
Proof.
  intros c now key v Hreach Hin.
  destruct (set_existing now key v c (reachable_wf _ Hreach) Hin)
    as [l1 [h [l2 [E1 [Hout [E3 [Hgt [Hev E2]]]]]]]].
  repeat split; auto.
  - congruence.
  - intros k Hne. rewrite E2, E1, app_assoc, !Map_get_app. simpl.
    destruct (eq_dec key k); [congruence | ].
    destruct (Map_get k l1); auto. destruct (Map_get k l2); auto.
Qed.

End Update.

(** ** Reading and deleting *)

Section Reads.
Context {K V : Type} {K_eq : EqDec K}.
Implicit Types (c : FIFOCache K V) (key k : K) (v : V) (now : Z).

Lemma Dist_get_eq now key c : Dist.get now key c = get now key c.
Proof.
  unfold Dist.get, Dist._getExpiringEntry, get.
  destruct (Map_get key (_cache c)) as [h | ]; auto.
  destruct (num_ge _ _); auto.
Qed.

(** C8. [get] on a key that is stored and not outdated returns its
    value and leaves the cache as it was: same entries, same expiration
    times, same order. *)
Theorem get_fresh_unchanged :
  forall c now key h,
    Map_get key (_cache c) = Some h ->
    num_ge (of_Z now) (expirationTimestamp h) = false ->
    get now key c = (Some (value h), c).
Proof.
  intros c now key h Hget Hfresh. unfold get. now rewrite Hget, Hfresh.
Qed.

(** C10. A [get] that returns [undefined] either found no entry and
    left the cache as it was, or found an outdated entry of the key and
    removed exactly that entry, the others keeping value, expiration
    time and order. *)
Theorem get_absent_frame :
  forall c now key c',
    reachable c ->
    get now key c = (None, c') ->
    (Map_get key (_cache c) = None /\ c' = c)
    \/
    (exists l1 h l2,
       _cache c = l1 ++ (key, h) :: l2 /\
       num_ge (of_Z now) (expirationTimestamp h) = true /\
       ~ In key (Map_keys (l1 ++ l2)) /\
       c' = with_cache c (l1 ++ l2)).
Proof.
  intros c now key c' Hreach Hget. unfold get in Hget.
  destruct (Map_get key (_cache c)) as [h | ] eqn:E.
  - right.
    destruct (Map_delete_split key _ (Map_get_Some_In _ _ _ E))
      as [l1 [h' [l2 [E1 [E2 [E3 E4]]]]]].
    assert (h' = h) by congruence. subst h'.
    pose proof (Map_delete_gone key _ (proj1 (reachable_wf _ Hreach))) as Hgone.
    rewrite E4 in Hget, Hgone. simpl snd in Hget, Hgone.
    destruct (num_ge (of_Z now) (expirationTimestamp h)) eqn:Eold;
      [ | discriminate].
    injection Hget as <-. exists l1, h, l2. auto.
  - left. injection Hget as <-. auto.
Qed.

(** C4. [has] of dist/fifo-ttl-cache.js answers [true] exactly when
    [get] returns a value, that is when the key is stored and not
    outdated, and leaves the cache in the state [get] leaves it in: an
    outdated entry is deleted, anything else is left alone. *)
Theorem has_like_get :
  forall c now key,
    Dist.has now key c =
      (match fst (Dist.get now key c) with Some _ => true | None => false end,
       snd (Dist.get now key c)) /\
    snd (Dist.has now key c) = snd (get now key c) /\
    (fst (Dist.has now key c) = true <->
     exists h, Map_get key (_cache c) = Some h /\
               num_ge (of_Z now) (expirationTimestamp h) = false) /\
    (fst (Dist.has now key c) = true -> snd (Dist.has now key c) = c) /\
    (Map_get key (_cache c) = None -> Dist.has now key c = (false, c)) /\
    (forall h, Map_get key (_cache c) = Some h ->
       num_ge (of_Z now) (expirationTimestamp h) = true ->
       Dist.has now key c =
         (false, with_cache c (snd (Map_delete key (_cache c))))).
Proof.
  intros c now key. unfold Dist.has, Dist.get, Dist._getExpiringEntry, get.
  destruct (Map_get key (_cache c)) as [h | ] eqn:E;
    [destruct (num_ge (of_Z now) (expirationTimestamp h)) eqn:Eold | ];
    simpl; repeat split;
    try discriminate; try reflexivity;
    try (intros [h' [H1 H2]]; congruence);
    try (intros h' H1 H2; congruence);
    eauto.
Qed.

(** C6. [delete] never looks at the clock or at the expiration time.
    It returns [true] exactly when the key was stored, outdated or not,
    and [false] exactly when it was not; afterwards the key is not
    stored and [get] returns [undefined]. *)
Theorem delete_existing_or_not :
  forall c key,
    reachable c ->
    (fst (delete key c) = true <-> exists h, Map_get key (_cache c) = Some h) /\
    (fst (delete key c) = false <-> Map_get key (_cache c) = None) /\
    (forall h now, Map_get key (_cache c) = Some h ->
       num_ge (of_Z now) (expirationTimestamp h) = true ->
       fst (delete key c) = true) /\
    Map_get key (_cache (snd (delete key c))) = None /\
    (forall now, get now key (snd (delete key c)) = (None, snd (delete key c))) /\
    (forall k, k <> key ->
       Map_get k (_cache (snd (delete key c))) = Map_get k (_cache c)).
Proof.
  intros c key Hreach.
  pose proof (Map_delete_existed key (_cache c)) as Hex.
  pose proof (Map_delete_gone key _ (proj1 (reachable_wf _ Hreach))) as Hgone.
  pose proof (fun k => Map_get_delete_other key k (_cache c)) as Hother.
  unfold delete. destruct (Map_delete key (_cache c)) as [existed m].
  simpl in *. apply Map_get_None in Hgone.
  assert (Htrue : existed = true <-> exists h, Map_get key (_cache c) = Some h).
  { rewrite Hex. split.
    - apply Map_get_In.
    - intros [h Hh]. eapply Map_get_Some_In; eauto. }
  repeat split; auto.
  - apply Htrue.
  - apply Htrue.
  - intros Hfalse. destruct (Map_get key (_cache c)) as [h | ] eqn:E; auto.
    assert (existed = true) by (apply Htrue; eauto). congruence.
  - intros Hnone. destruct existed; auto.
    destruct (proj1 Htrue eq_refl) as [h Hh]. congruence.
  - intros h now Hh _. apply Htrue. eauto.
  - intros now. unfold get. simpl. now rewrite Hgone.
Qed.

End Reads.

(** ** Expiration *)

Section Expiration.
Context {K V : Type} {K_eq : EqDec K}.
Implicit Types (c : FIFOCache K V) (key k : K) (v : V) (now : Z).

Lemma same_key_false (a b : K) : same_key a b = false -> a <> b.
Proof. unfold same_key. destruct (eq_dec a b); congruence. Qed.

(** Right after [set(key, v)] the entry of [key] is the one just made. *)
Lemma set_stores now key v c :
  wf c ->
  Map_get key (_cache (set now key v c)) =
  Some (snd (entry_of (_ttlMs c) (now, key, v))).
Proof.
  intros Hwf.
  pose proof (Map_delete_gone key _ (proj1 Hwf)) as Hgone.
  destruct (set_cases now key v c Hwf)
    as [[_ [_ ->]] | [k0 [h0 [rest' [Hr [Hne [_ [_ ->]]]]]]]];
    rewrite Map_get_app.
  - apply Map_get_None in Hgone. rewrite Hgone. simpl.
    destruct (eq_dec key key); congruence.
  - rewrite Hr in Hgone. simpl in Hgone.
    assert (Hout : Map_get key rest' = None) by (apply Map_get_None; tauto).
    rewrite Hout. simpl. destruct (eq_dec key key); congruence.
Qed.

(** A [set] on another key that does not evict [key] leaves the entry
    of [key], stored or not, as it was. *)
Lemma set_other now k v key c :
  wf c -> k <> key -> evictedKey now k v c <> Some key ->
  Map_get key (_cache (set now k v c)) = Map_get key (_cache c).
Proof.
  intros Hwf Hne Hev.
  pose proof (Map_get_delete_other k key (_cache c) (not_eq_sym Hne)) as Hdel.
  destruct (set_cases now k v c Hwf)
    as [[_ [_ ->]] | [k0 [h0 [rest' [Hr [_ [Hk0 [_ ->]]]]]]]];
    rewrite Map_get_app.
  - rewrite Hdel. destruct (Map_get key (_cache c)); auto.
    simpl. destruct (eq_dec k key); congruence.
  - rewrite Hr in Hdel. simpl in Hdel.
    destruct (eq_dec k0 key) as [-> | Hk0'].
    + congruence.
    + rewrite Hdel. destruct (Map_get key (_cache c)); auto.
      simpl. destruct (eq_dec k key); congruence.
Qed.

Lemma get_other now k key c :
  k <> key ->
  Map_get key (_cache (snd (get now k c))) = Map_get key (_cache c).
Proof.
  intros Hne. unfold get. destruct (Map_get k (_cache c)) as [h | ]; auto.
  destruct (num_ge _ _); simpl; auto.
  apply Map_get_delete_other. congruence.
Qed.

(** What [get] leaves of the entry of the key it reads. *)
Lemma get_same now key c h :
  wf c -> Map_get key (_cache c) = Some h ->
  (num_ge (of_Z now) (expirationTimestamp h) = false /\
   Map_get key (_cache (snd (get now key c))) = Some h)
  \/
  (num_ge (of_Z now) (expirationTimestamp h) = true /\
   Map_get key (_cache (snd (get now key c))) = None).
Proof.
  intros Hwf Hget. unfold get. rewrite Hget.
  destruct (num_ge (of_Z now) (expirationTimestamp h)); simpl; auto.
  right. split; auto. apply Map_get_None, Map_delete_gone, Hwf.
Qed.

(** One call that does not disturb [key]: its entry stays, or a read at
    or past its expiration time pruned it. *)
Lemma step_keeps key h (call : Z * Op K V) c :
  wf c -> disturbs key call c = false ->
  Map_get key (_cache c) = Some h ->
  Map_get key (_cache (step call c)) = Some h \/
  (Map_get key (_cache (step call c)) = None /\
   num_ge (of_Z (fst call)) (expirationTimestamp h) = true).
Proof.
  intros Hwf Hdist Hget.
  destruct call as [now [k v | k | k | k | ]]; simpl in *.
  - apply orb_false_iff in Hdist. destruct Hdist as [H1 H2].
    apply same_key_false in H1. left. rewrite <- Hget.
    apply set_other; auto.
    destruct (evictedKey now k v c) as [k0 | ]; [ | discriminate].
    apply same_key_false in H2. congruence.
  - destruct (eq_dec k key) as [-> | Hne].
    + destruct (get_same now key c h Hwf Hget) as [[_ H] | [H1 H2]]; auto.
    + left. rewrite get_other; auto.
  - rewrite has_state. destruct (eq_dec k key) as [-> | Hne].
    + destruct (get_same now key c h Hwf Hget) as [[_ H] | [H1 H2]]; auto.
    + left. rewrite get_other; auto.
  - apply same_key_false in Hdist. left. unfold delete.
    pose proof (Map_get_delete_other k key (_cache c) (not_eq_sym Hdist)) as H.
    destruct (Map_delete k (_cache c)). simpl in *. congruence.
  - discriminate.
Qed.

(** One call that does not disturb [key] does not store it either. *)
Lemma step_stays_absent key (call : Z * Op K V) c :
  wf c -> disturbs key call c = false ->
  Map_get key (_cache c) = None ->
  Map_get key (_cache (step call c)) = None.
Proof.
  intros Hwf Hdist Hget.
  destruct call as [now [k v | k | k | k | ]]; simpl in *.
  - apply orb_false_iff in Hdist. destruct Hdist as [H1 H2].
    apply same_key_false in H1. rewrite <- Hget.
    apply set_other; auto.
    destruct (evictedKey now k v c) as [k0 | ]; [ | discriminate].
    apply same_key_false in H2. congruence.
  - unfold get. destruct (Map_get k (_cache c)) as [h | ] eqn:E; auto.
    destruct (num_ge _ _); simpl; auto.
    destruct (eq_dec k key) as [-> | Hne]; [congruence | ].
    rewrite Map_get_delete_other; auto.
  - rewrite has_state.
    unfold get. destruct (Map_get k (_cache c)) as [h | ] eqn:E; auto.
    destruct (num_ge _ _); simpl; auto.
    destruct (eq_dec k key) as [-> | Hne]; [congruence | ].
    rewrite Map_get_delete_other; auto.
  - apply same_key_false in Hdist. unfold delete.
    pose proof (Map_get_delete_other k key (_cache c) (not_eq_sym Hdist)) as H.
    destruct (Map_delete k (_cache c)). simpl in *. congruence.
  - discriminate.
Qed.

(** Along undisturbing calls made on a clock that does not run
    backwards, the entry of [key] is kept until a read prunes it, which
    only happens at or past its expiration time. *)
Lemma run_keeps key h (calls : list (Z * Op K V)) :
  forall c (t0 now : Z),
    wf c -> undisturbed key calls c = true ->
    clock_monotone t0 calls now = true ->
    Map_get key (_cache c) = Some h \/
    (Map_get key (_cache c) = None /\
     num_ge (of_Z t0) (expirationTimestamp h) = true) ->
    Map_get key (_cache (run calls c)) = Some h \/
    (Map_get key (_cache (run calls c)) = None /\
     num_ge (of_Z now) (expirationTimestamp h) = true).
Proof.
  induction calls as [ | [t op] calls IH]; simpl; intros c t0 now Hwf Hund Hclk Hinv.
  - apply Z.leb_le in Hclk. destruct Hinv as [H | [H1 H2]]; auto.
    right. split; auto. eapply num_ge_later; eauto.
  - apply andb_true_iff in Hund. destruct Hund as [Hd Hund].
    apply negb_true_iff in Hd.
    apply andb_true_iff in Hclk. destruct Hclk as [Hle Hclk].
    apply Z.leb_le in Hle.
    apply (IH (step (t, op) c) t now); auto using wf_step.
    destruct Hinv as [H | [H1 H2]].
    + apply (step_keeps key h (t, op) c); auto.
    + right. split.
      * apply (step_stays_absent key (t, op) c); auto.
      * eapply num_ge_later; eauto.
Qed.

(** C1. Let [key] be set to [v] at time [T] in a cache that exists, and
    let any calls follow that neither delete, overwrite nor evict it, on
    a clock that does not run backwards.  A [get] at a time [now] with
    [now < T + _ttlMs] returns [v]; a [get] at a time with
    [now >= T + _ttlMs] returns [undefined]; one of the two holds. *)
Theorem ttl_expiration :
  forall c key v (T : Z) (calls : list (Z * Op K V)) (now : Z),
    reachable c ->
    let c1 := set T key v c in
    undisturbed key calls c1 = true ->
    clock_monotone T calls now = true ->
    let expiry := num_add (of_Z T) (_ttlMs c) in
    (num_lt (of_Z now) expiry = true ->
     fst (get now key (run calls c1)) = Some v) /\
    (num_ge (of_Z now) expiry = true ->
     fst (get now key (run calls c1)) = None) /\
    (num_lt (of_Z now) expiry = true \/ num_ge (of_Z now) expiry = true).
Proof.
  intros c key v T calls now Hreach c1 Hund Hclk expiry.
  pose proof (reachable_wf _ Hreach) as Hwf.
  set (h := {| value := v; expirationTimestamp := expiry |}).
  assert (Hstored : Map_get key (_cache c1) = Some h)
    by (apply set_stores; exact Hwf).
  pose proof (run_keeps key h calls c1 T now (wf_set T key v c Hwf) Hund Hclk
                (or_introl Hstored)) as Hkept.
  change (expirationTimestamp h) with expiry in Hkept.
  unfold get. repeat split.
  - intros Hlt. apply num_lt_not_ge in Hlt.
    destruct Hkept as [-> | [_ Hge]]; [ | congruence].
    change (expirationTimestamp h) with expiry. now rewrite Hlt.
  - intros Hge. destruct Hkept as [-> | [-> _]]; auto.
    change (expirationTimestamp h) with expiry. now rewrite Hge.
  - apply num_lt_or_ge; [discriminate | ].
    apply natural_add_not_NaN, Hwf.
Qed.

End Expiration.

(** ** Construction *)

Section Construction.
Context {K V : Type}.

Lemma constructor_accepts_iff (capacity ttlMs : number) :
  (exists c : FIFOCache K V, constructor capacity ttlMs = inr c) <->
  isNaturalNumber capacity = true /\ isNaturalNumber ttlMs = true.
Proof.
  unfold constructor.
  destruct (isNaturalNumber capacity), (isNaturalNumber ttlMs); simpl;
    split; try (intros [c H]; discriminate); try (intros [H1 H2]; discriminate);
    eauto.
Qed.

(** On finite numbers the constructor accepts exactly the pairs of
    positive integers. *)
Lemma constructor_finite (q1 q2 : Q) :
  (exists c : FIFOCache K V, constructor (Fin q1) (Fin q2) = inr c) <->
  exists n1 n2 : Z,
    (1 <= n1)%Z /\ (1 <= n2)%Z /\ (q1 == inject_Z n1)%Q /\ (q2 == inject_Z n2)%Q.
Proof.
  rewrite constructor_accepts_iff, !isNaturalNumber_Fin. split.
  - intros [[n1 [H1 H2]] [n2 [H3 H4]]]. exists n1, n2. auto.
  - intros [n1 [n2 [H1 [H2 [H3 H4]]]]]. split; eauto.
Qed.

(** [NaN] and [-Infinity] are rejected. *)
Lemma constructor_rejects_NaN_NInf (x other : number) :
  x = NaN \/ x = NInf ->
  (exists e, @constructor K V x other = inl e) /\
  (exists e, @constructor K V other x = inl e).
Proof.
  intros [-> | ->]; unfold constructor;
    rewrite ?isNaturalNumber_NaN, ?isNaturalNumber_NInf;
    destruct (isNaturalNumber other); simpl; eauto.
Qed.

(** C7, at [Infinity]. [Math.floor(Infinity)] is [Infinity], which is
    [>= 1] and [=== Infinity]: [isNaturalNumber(Infinity)] is [true], and
    the constructor returns a cache although [Infinity] is not a positive
    integer. *)
Theorem constructor_accepts_Infinity :
  isNaturalNumber PInf = true /\
  @constructor K V PInf (of_Z 1000) =
    inr {| _capacity := PInf; _ttlMs := of_Z 1000; _cache := [] |} /\
  @constructor K V (of_Z 1) PInf =
    inr {| _capacity := of_Z 1; _ttlMs := PInf; _cache := [] |}.
Proof.
  unfold constructor. rewrite isNaturalNumber_PInf.
  replace (isNaturalNumber (of_Z 1000)) with true by (now vm_compute).
  replace (isNaturalNumber (of_Z 1)) with true by (now vm_compute).
  repeat split.
Qed.

End Construction.

(** ** The worked scenario *)

Example scenario_full_size : size scenario_full = 3.
Proof. reflexivity. Qed.

Example scenario_next_reads :
  size scenario_next = 3 /\
  fst (get 11 1 scenario_next) = None /\
  fst (get 11 2 scenario_next) = Some 2 /\
  fst (get 11 3 scenario_next) = Some 3 /\
  fst (get 11 4 scenario_next) = Some 4.
Proof. now vm_compute. Qed.

Example scenario_expired :
  fst (get 1011 2 scenario_next) = None /\
  fst (get 1011 3 scenario_next) = None /\
  fst (get 1011 4 scenario_next) = None /\
  size (run (scenario_reads 1011) scenario_next) = 0 /\
  isEmpty (run (scenario_reads 1011) scenario_next) = true.
Proof. now vm_compute. Qed.

Example scenario_boundary :
  fst (get 999 2 scenario_next) = Some 2 /\
  fst (get 1000 2 scenario_next) = None /\
  fst (Dist.has 999 2 scenario_next) = true /\
  fst (Dist.has 1000 2 scenario_next) = false /\
  fst (delete 2 (snd (get 2000 3 scenario_next))) = true.
Proof. now vm_compute. Qed.

Example rejected_configurations :
  map (fun q => isNaturalNumber (Fin q))
      [-74 # 1; -567 # 100; 0 # 1; 1 # 10; 9543 # 1000; 3797 # 2]%Q
  = [false; false; false; false; false; false] /\
  map isNaturalNumber [NaN; NInf; PInf; of_Z 1; of_Z 144; Fin (6 # 2)]
  = [false; false; true; true; true; true].
Proof. now vm_compute. Qed.

Lemma scenario_new_constructed :
  constructor (of_nat 3) (of_nat 1000) = inr scenario_new.
Proof. now vm_compute. Qed.

Lemma scenario_full_reachable : reachable scenario_full.
Proof.
  exists (of_nat 3), (of_nat 1000), scenario_new, (map set_call scenario_sets).
  split; [exact scenario_new_constructed | reflexivity].
Qed.

Lemma scenario_next_reachable : reachable scenario_next.
Proof. apply (reachable_step (10%Z, OpSet 4 4)), scenario_full_reachable. Qed.

(** ** The theorems at the worked scenario *)

Lemma ttl_expiration_witness :
  fst (get 1009 4 (run (scenario_reads 500) scenario_next)) = Some 4 /\
  fst (get 1010 4 (run (scenario_reads 500) scenario_next)) = None.
Proof.
  split.
  - destruct (ttl_expiration scenario_full 4 4 10 (scenario_reads 500) 1009
                scenario_full_reachable eq_refl eq_refl) as [H _].
    apply H. now vm_compute.
  - destruct (ttl_expiration scenario_full 4 4 10 (scenario_reads 500) 1010
                scenario_full_reachable eq_refl eq_refl) as [_ [H _]].
    apply H. now vm_compute.
Defined.

Lemma capacity_invariant_witness :
  size (run (map set_call scenario_sets ++ scenario_reads 2000) scenario_new) <= 3
  /\ size (set 2001 7 7 (run (map set_call scenario_sets ++ scenario_reads 2000)
                           scenario_new)) <= 3.
Proof.
  destruct (capacity_invariant (of_nat 3) (of_nat 1000) scenario_new
              (map set_call scenario_sets ++ scenario_reads 2000)
              scenario_new_constructed) as [_ H].
  destruct (H 3 eq_refl) as [H1 H2]. split; [exact H1 | apply H2].
Defined.

Lemma scenario_keys_distinct :
  NoDup (map call_key (scenario_sets ++ [(10%Z, 4, 4)])).
Proof.
  simpl. repeat constructor; simpl; intuition discriminate.
Qed.

Lemma fifo_eviction_order_witness :
  exists ith rest,
    nth_error scenario_sets 0 = Some ith /\
    _cache scenario_full = entry_of (of_nat 1000) ith :: rest /\
    rest = skipn 1 (map (entry_of (of_nat 1000)) scenario_sets) /\
    Map_size (_cache scenario_full) = 3 /\
    evictedKey 10 4 4 scenario_full = Some (call_key ith) /\
    _cache scenario_next = rest ++ [entry_of (of_nat 1000) (10%Z, 4, 4)].
Proof.
  apply (fifo_eviction_order 3 1 (of_nat 1000) scenario_new scenario_sets
           10%Z 4 4 scenario_new_constructed scenario_keys_distinct
           (le_n 1) eq_refl).
Defined.

Lemma scenario_key_2_stored : In 2 (Map_keys (_cache scenario_full)).
Proof. vm_compute. auto. Qed.

Lemma set_existing_key_updates_witness :
  Map_get 2 (_cache (set 700 2 20 scenario_full)) =
    Some {| value := 20;
            expirationTimestamp := num_add (of_Z 700) (of_nat 1000) |} /\
  size (set 700 2 20 scenario_full) = size scenario_full.
Proof.
  destruct (set_existing_key_updates scenario_full 700 2 20
              scenario_full_reachable scenario_key_2_stored) as [H1 [H2 _]].
  split; [exact H1 | exact H2].
Defined.

Lemma set_existing_key_no_eviction_witness :
  evictedKey 700 2 20 scenario_full = None /\
  Map_get 1 (_cache (set 700 2 20 scenario_full)) =
    Map_get 1 (_cache scenario_full).
Proof.
  destruct (set_existing_key_no_eviction scenario_full 700 2 20
              scenario_full_reachable scenario_key_2_stored) as [_ [H1 [_ H2]]].
  split; [exact H1 | apply H2; discriminate].
Defined.

Lemma get_fresh_unchanged_witness :
  get 999 2 scenario_full = (Some 2, scenario_full).
Proof.
  apply (get_fresh_unchanged scenario_full 999 2
           {| value := 2; expirationTimestamp := num_add (of_Z 0) (of_nat 1000) |});
    now vm_compute.
Defined.

Lemma get_absent_frame_witness :
  (Map_get 2 (_cache scenario_full) = None /\
   snd (get 1000 2 scenario_full) = scenario_full)
  \/
  (exists l1 h l2,
     _cache scenario_full = l1 ++ (2, h) :: l2 /\
     num_ge (of_Z 1000) (expirationTimestamp h) = true /\
     ~ In 2 (Map_keys (l1 ++ l2)) /\
     snd (get 1000 2 scenario_full) = with_cache scenario_full (l1 ++ l2)).
Proof.
  apply (get_absent_frame scenario_full 1000 2 (snd (get 1000 2 scenario_full))
           scenario_full_reachable).
  now vm_compute.
Defined.

Lemma has_like_get_witness :
  fst (Dist.has 999 2 scenario_full) = true /\
  snd (Dist.has 1000 2 scenario_full) = snd (get 1000 2 scenario_full).
Proof.
  split.
  - destruct (has_like_get scenario_full 999 2) as [_ [_ [H _]]].
    apply H. eexists. split; now vm_compute.
  - destruct (has_like_get scenario_full 1000 2) as [_ [H _]]. exact H.
Defined.

Lemma delete_existing_or_not_witness :
  fst (delete 2 scenario_full) = true /\
  fst (delete 9 scenario_full) = false /\
  Map_get 2 (_cache (snd (delete 2 scenario_full))) = None.
Proof.
  destruct (delete_existing_or_not scenario_full 2 scenario_full_reachable)
    as [H1 [_ [_ [H2 _]]]].
  destruct (delete_existing_or_not scenario_full 9 scenario_full_reachable)
    as [_ [H3 _]].
  split; [ | split].
  - apply H1. eexists. now vm_compute.
  - apply H3. now vm_compute.
  - exact H2.
Defined.

(** * Further properties of the code *)

(** ** Stored entries *)

Section Entries.
Context {K V : Type} {K_eq : EqDec K}.
Implicit Types (c : FIFOCache K V) (key k : K) (v : V) (now : Z)
  (m : JSMap K V) (h : ValueHolder V).

Lemma Map_get_In_entry key h m : Map_get key m = Some h -> In (key, h) m.
Proof.
  induction m as [ | [k0 h0] m IH]; simpl; [discriminate | ].
  destruct (eq_dec k0 key) as [-> | Hne]; auto.
  intros H. left. congruence.
Qed.

Lemma In_entry_Map_get key h m :
  NoDup (Map_keys m) -> In (key, h) m -> Map_get key m = Some h.
Proof.
  induction m as [ | [k0 h0] m IH]; simpl; [tauto | ].
  intros Hnd [Heq | Hin]; inversion Hnd as [ | ? ? Hk0 Hm]; subst.
  - injection Heq as -> ->. destruct (eq_dec key key); congruence.
  - destruct (eq_dec k0 key) as [-> | Hne]; auto.
    exfalso. apply Hk0. unfold Map_keys.
    change key with (fst (key, h)). now apply in_map.
Qed.

(** An entry found after a deletion was there before it. *)
Lemma Map_get_after_delete k key h m :
  NoDup (Map_keys m) ->
  Map_get key (snd (Map_delete k m)) = Some h -> Map_get key m = Some h.
Proof.
  intros Hnd H. destruct (eq_dec k key) as [-> | Hne].
  - pose proof (Map_delete_gone key m Hnd) as Hgone.
    apply Map_get_None in Hgone. congruence.
  - rewrite Map_get_delete_other in H; auto.
Qed.

Lemma set_inserted_NoDup now key v c :
  wf c -> NoDup (Map_keys (set_inserted now key v c)).
Proof.
  intros Hwf. rewrite (set_inserted_app now key v c (proj1 Hwf)).
  apply NoDup_keys_snoc.
  - apply Map_delete_NoDup, Hwf.
  - apply Map_delete_gone, Hwf.
Qed.

(** The entry of [key] after one call is the one it had before, or the
    one that a [set(key, ...)] just stored. *)
Lemma step_entry_origin (call : Z * Op K V) key h c :
  wf c ->
  Map_get key (_cache (step call c)) = Some h ->
  Map_get key (_cache c) = Some h \/
  (snd call = OpSet key (value h) /\
   expirationTimestamp h = num_add (of_Z (fst call)) (_ttlMs c)).
Proof.
  intros Hwf Hget. destruct call as [now [k v | k | k | k | ]]; simpl in *.
  - destruct (eq_dec k key) as [-> | Hne].
    + rewrite (set_stores now key v c Hwf) in Hget. simpl in Hget.
      injection Hget as <-. right. auto.
    + left. rewrite set_by_evictedKey in Hget.
      assert (Hins : Map_get key (set_inserted now k v c) = Map_get key (_cache c)).
      { rewrite (set_inserted_app now k v c (proj1 Hwf)), Map_get_app.
        rewrite Map_get_delete_other by congruence.
        destruct (Map_get key (_cache c)); auto. simpl.
        destruct (eq_dec k key); congruence. }
      destruct (evictedKey now k v c) as [k0 | ]; [ | congruence].
      apply Map_get_after_delete in Hget; [congruence | ].
      now apply set_inserted_NoDup.
  - left. unfold get in Hget.
    destruct (Map_get k (_cache c)); auto.
    destruct (num_ge _ _); simpl in Hget; auto.
    eapply Map_get_after_delete; eauto. apply Hwf.
  - left. rewrite has_state in Hget. unfold get in Hget.
    destruct (Map_get k (_cache c)); auto.
    destruct (num_ge _ _); simpl in Hget; auto.
    eapply Map_get_after_delete; eauto. apply Hwf.
  - left. unfold delete in Hget.
    pose proof (Map_get_after_delete k key h (_cache c) (proj1 Hwf)) as H.
    destruct (Map_delete k (_cache c)). simpl in *. auto.
  - discriminate.
Qed.

(** Every entry stored after some calls on an empty cache was put there
    by one of the calls, a [set] of that key and value, and expires
    [_ttlMs] after the time of that call. *)
Lemma run_entry_origin (calls : list (Z * Op K V)) c key h :
  wf c -> _cache c = [] ->
  Map_get key (_cache (run calls c)) = Some h ->
  exists t, In (t, OpSet key (value h)) calls /\
            expirationTimestamp h = num_add (of_Z t) (_ttlMs c).
Proof.
  intros Hwf Hempty. revert h.
  induction calls as [ | call calls IH] using rev_ind; intros h Hget.
  - simpl in Hget. rewrite Hempty in Hget. discriminate.
  - rewrite run_app in Hget. simpl in Hget.
    destruct (step_entry_origin call key h (run calls c) (wf_run calls c Hwf) Hget)
      as [Hold | [Hop Hexp]].
    + destruct (IH h Hold) as [t [Hin Ht]]. exists t. split; auto.
      apply in_or_app. now left.
    + exists (fst call). destruct (run_config calls c) as [_ Httl].
      split; [ | congruence].
      apply in_or_app. right. left. destruct call; simpl in *. congruence.
Qed.

(** The map never holds two entries of one key: looking a key up and
    finding its entry in the list are the same thing. *)
Theorem keys_unique :
  forall c,
    reachable c ->
    NoDup (Map_keys (_cache c)) /\
    (forall key h, Map_get key (_cache c) = Some h <-> In (key, h) (_cache c)).
Proof.
  intros c Hreach. pose proof (proj1 (reachable_wf c Hreach)) as Hnd.
  split; auto. intros key h. split.
  - apply Map_get_In_entry.
  - now apply In_entry_Map_get.
Qed.

(** Every stored entry comes from a [set] call of its key and value and
    carries the expiration time [t + _ttlMs] of that call. *)
Theorem stored_entries_come_from_sets :
  forall (capacity ttlMs : number) (c0 : FIFOCache K V)
         (calls : list (Z * Op K V)) key h,
    constructor capacity ttlMs = inr c0 ->
    In (key, h) (_cache (run calls c0)) ->
    exists t, In (t, OpSet key (value h)) calls /\
              expirationTimestamp h = num_add (of_Z t) ttlMs.
Proof.
  intros capacity ttlMs c0 calls key h Hnew Hin.
  destruct (wf_constructor _ _ _ Hnew) as [Hwf Hempty].
  destruct (constructor_config _ _ _ Hnew) as [_ Httl].
  rewrite <- Httl. apply run_entry_origin; auto.
  apply In_entry_Map_get; auto. apply (wf_run calls c0 Hwf).
Qed.

(** [get] never returns a stale value: what it returns at time [now] was
    set for that key at some time [t] with [now < t + _ttlMs]. *)
Theorem get_returns_fresh :
  forall (capacity ttlMs : number) (c0 : FIFOCache K V)
         (calls : list (Z * Op K V)) now key v,
    constructor capacity ttlMs = inr c0 ->
    fst (get now key (run calls c0)) = Some v ->
    exists t, In (t, OpSet key v) calls /\
              num_lt (of_Z now) (num_add (of_Z t) ttlMs) = true.
Proof.
  intros capacity ttlMs c0 calls now key v Hnew Hget.
  destruct (wf_constructor _ _ _ Hnew) as [Hwf Hempty].
  destruct (constructor_config _ _ _ Hnew) as [_ Httl].
  unfold get in Hget.
  destruct (Map_get key (_cache (run calls c0))) as [h | ] eqn:E;
    [ | discriminate].
  destruct (num_ge (of_Z now) (expirationTimestamp h)) eqn:Eold;
    [discriminate | ].
  simpl in Hget. injection Hget as <-.
  destruct (run_entry_origin calls c0 key h Hwf Hempty E) as [t [Hin Hexp]].
  exists t. split; auto. rewrite Httl in Hexp. rewrite <- Hexp.
  destruct (num_lt_or_ge (of_Z now) (expirationTimestamp h)) as [H | H];
    auto; [discriminate | | congruence].
  rewrite Hexp. apply natural_add_not_NaN. rewrite <- Httl. apply Hwf.
Qed.

(** Once [_ttlMs] has passed since every [set], every [get] returns
    [undefined]. *)
Theorem all_expired :
  forall (capacity ttlMs : number) (c0 : FIFOCache K V)
         (calls : list (Z * Op K V)) now,
    constructor capacity ttlMs = inr c0 ->
    (forall t k v, In (t, OpSet k v) calls ->
       num_ge (of_Z now) (num_add (of_Z t) ttlMs) = true) ->
    forall key, fst (get now key (run calls c0)) = None.
Proof.
  intros capacity ttlMs c0 calls now Hnew Hold key.
  destruct (wf_constructor _ _ _ Hnew) as [Hwf Hempty].
  destruct (constructor_config _ _ _ Hnew) as [_ Httl].
  unfold get.
  destruct (Map_get key (_cache (run calls c0))) as [h | ] eqn:E; auto.
  destruct (run_entry_origin calls c0 key h Hwf Hempty E) as [t [Hin Hexp]].
  rewrite Hexp, Httl, (Hold t key (value h) Hin). reflexivity.
Qed.

End Entries.

(** ** How calls compose *)

Section Composition.
Context {K V : Type} {K_eq : EqDec K}.
Implicit Types (c : FIFOCache K V) (key k : K) (v : V) (now : Z).

Lemma with_cache_id c : with_cache c (_cache c) = c.
Proof. now destruct c. Qed.

(** [_capacity] and [_ttlMs] are the constructor's arguments for the
    whole life of the cache, and both passed [isNaturalNumber]. *)
Theorem config_immutable :
  forall (capacity ttlMs : number) (c0 : FIFOCache K V)
         (calls : list (Z * Op K V)),
    constructor capacity ttlMs = inr c0 ->
    _capacity (run calls c0) = capacity /\
    _ttlMs (run calls c0) = ttlMs /\
    isNaturalNumber capacity = true /\ isNaturalNumber ttlMs = true.
Proof.
  intros capacity ttlMs c0 calls Hnew.
  destruct (constructor_config _ _ _ Hnew) as [E1 E2].
  destruct (run_config calls c0) as [E3 E4].
  destruct (wf_constructor _ _ _ Hnew) as [[_ [H1 [H2 _]]] _].
  repeat split; congruence.
Qed.

(** [clear] brings a cache back to the state the constructor returned,
    whatever happened in between. *)
Theorem clear_resets :
  forall (capacity ttlMs : number) (c0 : FIFOCache K V)
         (calls : list (Z * Op K V)),
    constructor capacity ttlMs = inr c0 ->
    clear (run calls c0) = c0 /\
    size (clear (run calls c0)) = 0 /\
    isEmpty (clear (run calls c0)) = true.
Proof.
  intros capacity ttlMs c0 calls Hnew.
  destruct (run_config calls c0) as [E1 E2].
  destruct (wf_constructor _ _ _ Hnew) as [_ Hempty].
  assert (H : clear (run calls c0) = c0).
  { unfold clear, with_cache, Map_clear. rewrite E1, E2.
    destruct c0 as [cap ttl m]. simpl in *. now subst m. }
  rewrite H. unfold isEmpty, size. now rewrite Hempty.
Qed.

(** On a key that is not stored, [get], [has] and [delete] answer
    [undefined], [false] and [false] and change nothing. *)
Theorem missing_key_noop :
  forall c now key,
    Map_get key (_cache c) = None ->
    get now key c = (None, c) /\
    Dist.get now key c = (None, c) /\
    Dist.has now key c = (false, c) /\
    delete key c = (false, c).
Proof.
  intros c now key Hnone.
  unfold get, Dist.get, Dist.has, Dist._getExpiringEntry, delete.
  rewrite Hnone. apply Map_get_None in Hnone.
  rewrite (Map_delete_absent key _ Hnone), with_cache_id. auto.
Qed.

(** A read makes the same read at the same instant pure: a second
    [get], after a [get] or a [has], returns what the first would and
    changes nothing more. *)
Theorem reads_idempotent :
  forall c now key,
    reachable c ->
    let c1 := snd (get now key c) in
    get now key c1 = (fst (get now key c), c1) /\
    get now key (snd (Dist.has now key c)) = (fst (get now key c), c1) /\
    Dist.has now key c1 = (fst (Dist.has now key c), c1).
Proof.
  intros c now key Hreach c1. subst c1. rewrite has_state.
  pose proof (Map_delete_gone key _ (proj1 (reachable_wf c Hreach))) as Hgone.
  apply Map_get_None in Hgone.
  unfold Dist.has, Dist._getExpiringEntry, get.
  destruct (Map_get key (_cache c)) as [h | ] eqn:E.
  - destruct (num_ge (of_Z now) (expirationTimestamp h)) eqn:Eold; simpl.
    + rewrite Hgone. auto.
    + rewrite E, Eold. auto.
  - simpl. rewrite E. auto.
Qed.

(** [delete] takes exactly one entry off [size] when it returns [true]
    and none when it returns [false]; deleting again returns [false] and
    changes nothing. *)
Theorem delete_accounting :
  forall c key,
    reachable c ->
    let c1 := snd (delete key c) in
    size c = (if fst (delete key c) then 1 else 0) + size c1 /\
    delete key c1 = (false, c1).
Proof.
  intros c key Hreach c1. subst c1.
  pose proof (Map_delete_gone key _ (proj1 (reachable_wf c Hreach))) as Hgone.
  pose proof (Map_delete_size key (_cache c)) as Hsize.
  unfold delete, size.
  destruct (Map_delete key (_cache c)) as [existed m]. simpl in *.
  split; auto.
  rewrite (Map_delete_absent key m Hgone).
  reflexivity.
Qed.

(** Lazy pruning drains the cache: when every stored entry is outdated
    at [now], reading every stored key at [now] leaves the cache empty,
    as [clear] would. *)
Theorem expired_reads_drain :
  forall c now,
    (forall k h, In (k, h) (_cache c) ->
       num_ge (of_Z now) (expirationTimestamp h) = true) ->
    run (map (fun k => (now, OpGet k)) (Map_keys (_cache c))) c = clear c.
Proof.
  intros [cap ttl m] now. unfold clear, with_cache, Map_clear. simpl.
  induction m as [ | [k h] m IH]; intros Hold; simpl; auto.
  unfold get. simpl.
  destruct (eq_dec k k); [ | congruence].
  rewrite (Hold k h (or_introl eq_refl)). simpl.
  apply IH. intros k' h' Hin. apply (Hold k' h'). now right.
Qed.

End Composition.

(** ** Inserting *)

Section Inserting.
Context {K V : Type} {K_eq : EqDec K}.
Implicit Types (c : FIFOCache K V) (key k : K) (v : V) (now : Z).

(** [set] of a key that is not stored appends the entry; it then evicts
    the head of the map exactly when the cache was full, whatever the
    history of the cache and the expiration times in it. *)
Theorem set_new_key :
  forall c now key v,
    reachable c ->
    Map_get key (_cache c) = None ->
    let e := (key, {| value := v;
                      expirationTimestamp := num_add (of_Z now) (_ttlMs c) |}) in
    ((num_gt (of_nat (S (size c))) (_capacity c) = false /\
      evictedKey now key v c = None /\
      _cache (set now key v c) = _cache c ++ [e])
     \/
     (num_gt (of_nat (S (size c))) (_capacity c) = true /\
      exists k0 h0 rest,
        _cache c = (k0, h0) :: rest /\
        evictedKey now key v c = Some k0 /\
        _cache (set now key v c) = rest ++ [e])) /\
    (forall N : nat, _capacity c = of_nat N ->
       size (set now key v c) = Nat.min (S (size c)) N).
Proof.
  intros c now key v Hreach Hnone e.
  pose proof (reachable_wf c Hreach) as Hwf.
  pose proof (set_cases now key v c Hwf) as Hcases. cbv zeta in Hcases.
  apply Map_get_None in Hnone.
  rewrite (Map_delete_absent key _ Hnone) in Hcases. simpl snd in Hcases.
  change (entry_of (_ttlMs c) (now, key, v)) with e in Hcases.
  fold (size c) in Hcases.
  destruct Hwf as [_ [_ [_ Hsize]]].
  destruct Hcases as [[Hev [Hgt Hc]] | [k0 [h0 [rest [Hr [_ [Hev [Hgt Hc]]]]]]]].
  - split; [left; auto | ].
    intros N HN. rewrite HN, num_gt_of_nat in Hgt. apply Nat.ltb_ge in Hgt.
    unfold size, Map_size in *. rewrite Hc, length_app. simpl length. lia.
  - split; [right; split; auto; exists k0, h0, rest; auto | ].
    intros N HN. rewrite HN, num_gt_of_nat in Hgt, Hsize.
    apply Nat.ltb_lt in Hgt. apply Nat.ltb_ge in Hsize.
    unfold size, Map_size in *. rewrite Hc, length_app.
    rewrite Hr in *. simpl length in *. lia.
Qed.

(** [set] touches no key but its own and the one it evicts: any other
    key keeps its entry, and a key that lost its entry is the evicted
    one. *)
Theorem set_frame :
  forall c now key v k,
    reachable c ->
    k <> key ->
    Map_get k (_cache (set now key v c)) = Map_get k (_cache c) \/
    (evictedKey now key v c = Some k /\
     Map_get k (_cache (set now key v c)) = None).
Proof.
  intros c now key v k Hreach Hne.
  pose proof (reachable_wf c Hreach) as Hwf.
  destruct (evictedKey now key v c) as [k0 | ] eqn:Hev.
  - destruct (eq_dec k0 k) as [-> | Hk0].
    + right. split; auto. rewrite set_by_evictedKey, Hev.
      apply Map_get_None, Map_delete_gone.
      now apply set_inserted_NoDup.
    + left. apply set_other; auto. rewrite Hev. congruence.
  - left. apply set_other; auto. rewrite Hev. discriminate.
Qed.

Lemma NoDup_app_disjoint {A : Type} (l1 l2 : list A) (a : A) :
  NoDup (l1 ++ l2) -> In a l1 -> ~ In a l2.
Proof.
  induction l1 as [ | x l1 IH]; simpl; [tauto | ].
  intros Hnd [-> | Hin] Hin2; inversion Hnd as [ | ? ? Hx Hrest]; subst.
  - apply Hx. apply in_or_app. now right.
  - now apply IH.
Qed.

(** After [set]s of distinct keys a cache of capacity [N] holds a
    sliding window: the entries of the last [N] keys set, in order of
    insertion, and nothing of the keys set before them. *)
Theorem fifo_window :
  forall (N : nat) (ttlMs : number) (c0 : FIFOCache K V)
         (ins : list (Z * K * V)),
    constructor (of_nat N) ttlMs = inr c0 ->
    NoDup (map call_key ins) ->
    let c := run (map set_call ins) c0 in
    _cache c = skipn (length ins - N) (map (entry_of ttlMs) ins) /\
    size c = Nat.min (length ins) N /\
    forall j call,
      nth_error ins j = Some call ->
      Map_get (call_key call) (_cache c) =
      if length ins - N <=? j then Some (snd (entry_of ttlMs call)) else None.
Proof.
  intros N ttlMs c0 ins Hnew Hnd c.
  pose proof (fifo_contents N ttlMs c0 ins Hnew Hnd) as Hc. fold c in Hc.
  assert (Hwf : wf c).
  { apply wf_run. eapply wf_constructor; eauto. }
  destruct Hwf as [Hndc _].
  split; [exact Hc | ]. split.
  - unfold size, Map_size. rewrite Hc, length_skipn, length_map. lia.
  - intros j call Hj.
    set (d := length ins - N) in *.
    destruct (Nat.leb_spec d j) as [Hle | Hlt].
    + apply In_entry_Map_get; auto. rewrite Hc.
      replace (call_key call, snd (entry_of ttlMs call))
        with (entry_of ttlMs call)
        by (destruct call as [[t k] v]; reflexivity).
      apply nth_error_In with (j - d).
      rewrite nth_error_skipn.
      replace (d + (j - d)) with j by lia.
      now apply map_nth_error.
    + apply Map_get_None. rewrite Hc.
      unfold Map_keys. rewrite <- skipn_map.
      fold (Map_keys (map (entry_of ttlMs) ins)).
      rewrite Map_keys_entries.
      rewrite <- (firstn_skipn d (map call_key ins)) in Hnd.
      apply (NoDup_app_disjoint _ _ _ Hnd).
      apply nth_error_In with j.
      rewrite nth_error_firstn.
      replace (j <? d) with true by (symmetry; apply Nat.ltb_lt; lia).
      now apply map_nth_error.
Qed.

End Inserting.

(** ** The populated test cache *)

Lemma num_ge_sum (a b n : Z) :
  num_ge (of_Z a) (num_add (of_Z b) (of_Z n)) = (b + n <=? a)%Z.
Proof.
  with_strategy transparent [num_ge num_add of_Z]
    (unfold num_ge, num_add, of_Z).
  apply eq_iff_eq_true.
  rewrite Qle_bool_iff, Z.leb_le, <- inject_Z_plus, <- Zle_Qle. reflexivity.
Qed.

Lemma Map_get_keyed {V : Type} (f : nat -> ValueHolder V) (l : list nat)
      (key : nat) :
  In key l -> Map_get key (map (fun k => (k, f k)) l) = Some (f key).
Proof.
  induction l as [ | k l IH]; simpl; [tauto | ].
  intros Hin. destruct (eq_dec k key) as [-> | Hne]; auto.
  apply IH. destruct Hin; [contradiction | assumption].
Qed.

(** What the helper returns when the clock reads [now]. *)
Lemma createPopulatedTestCache_eq (now : Z) :
  createPopulatedTestCache now =
  Returned {| _capacity := of_nat MOCK_CAPACITY;
              _ttlMs := of_Z MOCK_TTL_MS;
              _cache := map (fun k => (k, {| value := k;
                                             expirationTimestamp :=
                                               num_add (of_Z now)
                                                       (of_Z MOCK_TTL_MS) |}))
                            (seq 1 MOCK_CAPACITY) |}.
Proof. vm_compute. reflexivity. Qed.

(** [createPopulatedTestCache] passes its own expectations and returns a
    full cache holding the keys of [createAllKeys] in that order, each
    with itself as value. *)
Theorem populated_test_cache :
  forall now : Z,
  exists c,
    createPopulatedTestCache now = Returned c /\
    size c = MOCK_CAPACITY /\
    isEmpty c = false /\
    Map_keys (_cache c) = createAllKeys /\
    forall key, In key createAllKeys ->
      Map_get key (_cache c) =
      Some {| value := key;
              expirationTimestamp := num_add (of_Z now) (of_Z MOCK_TTL_MS) |}.
Proof.
  intros now. eexists. split; [apply createPopulatedTestCache_eq | ].
  split; [now vm_compute | ]. split; [now vm_compute | ].
  split; [now vm_compute | ]. cbn [_cache].
  intros key Hin.
    apply (Map_get_keyed
             (fun k => {| value := k;
                          expirationTimestamp :=
                            num_add (of_Z now) (of_Z MOCK_TTL_MS) |})).
  revert Hin. now vm_compute.
Qed.

(** On the populated cache, set when the clock read [now]: a [get] of
    one of its keys before [now + MOCK_TTL_MS] returns the key itself
    and changes nothing; from [now + MOCK_TTL_MS] on it returns
    [undefined] and takes one entry off [size]. *)
Theorem populated_test_cache_reads :
  forall (now t : Z) (c : FIFOCache nat nat) (key : nat),
    createPopulatedTestCache now = Returned c ->
    1 <= key <= MOCK_CAPACITY ->
    ((t < now + MOCK_TTL_MS)%Z -> get t key c = (Some key, c)) /\
    ((now + MOCK_TTL_MS <= t)%Z ->
     fst (get t key c) = None /\
     S (size (snd (get t key c))) = MOCK_CAPACITY /\
     Map_get key (_cache (snd (get t key c))) = None).
Proof.
  intros now t c key Hc Hkey.
  pose proof (createPopulatedTestCache_eq now) as E. rewrite Hc in E.
  remember (seq 1 MOCK_CAPACITY) as keys eqn:Hkeys.
  injection E as ->.
  set (h := fun k : nat =>
              {| value := k;
                 expirationTimestamp := num_add (of_Z now) (of_Z MOCK_TTL_MS) |}).
  set (m := map (fun k => (k, h k)) keys).
  assert (Hget : Map_get key m = Some (h key)).
  { apply Map_get_keyed. rewrite Hkeys. apply in_seq. lia. }
  assert (Hnd : NoDup (Map_keys m)).
  { unfold m, Map_keys. rewrite map_map. cbn [fst]. rewrite map_id, Hkeys.
    apply seq_NoDup. }
  unfold get. cbn [_cache].
  change (map _ keys) with m. rewrite Hget.
  cbn [expirationTimestamp h value]. rewrite num_ge_sum. split.
  - intros Hlt. replace (now + MOCK_TTL_MS <=? t)%Z with false; auto.
    symmetry. apply Z.leb_gt. exact Hlt.
  - intros Hle. replace (now + MOCK_TTL_MS <=? t)%Z with true
      by (symmetry; apply Z.leb_le; exact Hle).
    cbn [fst snd with_cache _cache size]. repeat split.
    + pose proof (Map_delete_size key m) as Hsz.
      assert (Hex : fst (Map_delete key m) = true).
      { apply Map_delete_existed. eapply Map_get_Some_In; eauto. }
      rewrite Hex in Hsz.
      transitivity (Map_size m); [symmetry; exact Hsz | ].
      unfold m, Map_size. now rewrite length_map, Hkeys, length_seq.
    + apply Map_get_None. now apply Map_delete_gone.
Qed.

(** ** A cache built with [Infinity] *)

Section Unbounded.
Context {K V : Type} {K_eq : EqDec K}.

Lemma num_gt_PInf (a : number) : num_gt a PInf = false.
Proof. destruct a; now vm_compute. Qed.

Lemma num_ge_PInf (now : Z) : num_ge (of_Z now) PInf = false.
Proof. now vm_compute. Qed.

Lemma num_add_PInf (t : Z) : num_add (of_Z t) PInf = PInf.
Proof. now vm_compute. Qed.

(** With [_capacity = Infinity] the capacity test of [set] is never
    true: no [set] evicts, and every other key keeps its entry. *)
Theorem infinite_capacity_never_evicts :
  forall (ttlMs : number) (c0 : FIFOCache K V) (calls : list (Z * Op K V))
         now key v,
    constructor PInf ttlMs = inr c0 ->
    let c := run calls c0 in
    evictedKey now key v c = None /\
    _cache (set now key v c) = set_inserted now key v c /\
    forall k, k <> key ->
      Map_get k (_cache (set now key v c)) = Map_get k (_cache c).
Proof.
  intros ttlMs c0 calls now key v Hnew c.
  destruct (constructor_config _ _ _ Hnew) as [Hcap _].
  destruct (run_config calls c0) as [Hcap' _]. fold c in Hcap'.
  assert (Hwf : wf c).
  { apply wf_run. eapply wf_constructor; eauto. }
  assert (Hev : evictedKey now key v c = None).
  { unfold evictedKey. now rewrite Hcap', Hcap, num_gt_PInf. }
  split; auto. split.
  - now rewrite set_by_evictedKey, Hev.
  - intros k Hne. apply set_other; auto. rewrite Hev. discriminate.
Qed.

(** With [_ttlMs = Infinity] no entry is ever outdated: a read never
    prunes, and returns the value of every key that is stored. *)
Theorem infinite_ttl_never_expires :
  forall (capacity : number) (c0 : FIFOCache K V) (calls : list (Z * Op K V))
         now key,
    constructor capacity PInf = inr c0 ->
    let c := run calls c0 in
    snd (get now key c) = c /\
    fst (get now key c) = option_map (@value V) (Map_get key (_cache c)).
Proof.
  intros capacity c0 calls now key Hnew c.
  destruct (wf_constructor _ _ _ Hnew) as [Hwf Hempty].
  destruct (constructor_config _ _ _ Hnew) as [_ Httl].
  unfold get. destruct (Map_get key (_cache c)) as [h | ] eqn:E; auto.
  destruct (run_entry_origin calls c0 key h Hwf Hempty E) as [t [_ Hexp]].
  rewrite Httl, num_add_PInf in Hexp. rewrite Hexp, num_ge_PInf. auto.
Qed.

End Unbounded.

(** ** The further properties at the worked scenario *)

Lemma keys_unique_witness :
  NoDup (Map_keys (_cache scenario_next)) /\
  (Map_get 4 (_cache scenario_next) =
     Some {| value := 4; expirationTimestamp := num_add (of_Z 10) (of_nat 1000) |}
   <-> In (4, {| value := 4;
                 expirationTimestamp := num_add (of_Z 10) (of_nat 1000) |})
          (_cache scenario_next)).
Proof.
  destruct (keys_unique scenario_next scenario_next_reachable) as [H1 H2].
  split; [exact H1 | apply H2].
Defined.

Lemma scenario_entry_2 :
  In (2, {| value := 2; expirationTimestamp := num_add (of_Z 0) (of_nat 1000) |})
     (_cache (run (map set_call scenario_sets) scenario_new)).
Proof. vm_compute. auto. Qed.

Lemma stored_entries_come_from_sets_witness :
  exists t, In (t, OpSet 2 2) (map set_call scenario_sets) /\
            num_add (of_Z 0) (of_nat 1000) = num_add (of_Z t) (of_nat 1000).
Proof.
  apply (stored_entries_come_from_sets (of_nat 3) (of_nat 1000) scenario_new
           (map set_call scenario_sets) 2
           {| value := 2;
              expirationTimestamp := num_add (of_Z 0) (of_nat 1000) |}
           scenario_new_constructed scenario_entry_2).
Defined.

Lemma get_returns_fresh_witness :
  exists t, In (t, OpSet 2 2) (map set_call scenario_sets) /\
            num_lt (of_Z 999) (num_add (of_Z t) (of_nat 1000)) = true.
Proof.
  apply (get_returns_fresh (of_nat 3) (of_nat 1000) scenario_new
           (map set_call scenario_sets) 999 2 2 scenario_new_constructed).
  now vm_compute.
Defined.

Lemma scenario_sets_old :
  forall (t : Z) (k v : nat),
    In (t, OpSet k v) (map set_call scenario_sets) ->
    num_ge (of_Z 1000) (num_add (of_Z t) (of_nat 1000)) = true.
Proof.
  intros t k v H. simpl in H.
  destruct H as [H | [H | [H | []]]]; injection H as <- _ _; now vm_compute.
Qed.

Lemma all_expired_witness :
  fst (get 1000 3 (run (map set_call scenario_sets) scenario_new)) = None.
Proof.
  apply (all_expired (of_nat 3) (of_nat 1000) scenario_new
           (map set_call scenario_sets) 1000 scenario_new_constructed
           scenario_sets_old).
Defined.

Lemma config_immutable_witness :
  _capacity (run (scenario_reads 2000) scenario_new) = of_nat 3 /\
  _ttlMs (run (scenario_reads 2000) scenario_new) = of_nat 1000.
Proof.
  destruct (config_immutable (of_nat 3) (of_nat 1000) scenario_new
              (scenario_reads 2000) scenario_new_constructed) as [H1 [H2 _]].
  split; [exact H1 | exact H2].
Defined.

Lemma clear_resets_witness :
  clear (run (map set_call scenario_sets) scenario_new) = scenario_new.
Proof.
  destruct (clear_resets (of_nat 3) (of_nat 1000) scenario_new
              (map set_call scenario_sets) scenario_new_constructed) as [H _].
  exact H.
Defined.

Lemma scenario_key_9_missing : Map_get 9 (_cache scenario_full) = None.
Proof. now vm_compute. Qed.

Lemma scenario_key_4_missing : Map_get 4 (_cache scenario_full) = None.
Proof. now vm_compute. Qed.

Lemma missing_key_noop_witness :
  get 5 9 scenario_full = (None, scenario_full) /\
  delete 9 scenario_full = (false, scenario_full).
Proof.
  destruct (missing_key_noop scenario_full 5 9 scenario_key_9_missing)
    as [H1 [_ [_ H2]]].
  split; [exact H1 | exact H2].
Defined.

Lemma reads_idempotent_witness :
  get 1000 2 (snd (get 1000 2 scenario_full)) =
  (fst (get 1000 2 scenario_full), snd (get 1000 2 scenario_full)).
Proof.
  destruct (reads_idempotent scenario_full 1000 2 scenario_full_reachable)
    as [H _].
  exact H.
Defined.

Lemma delete_accounting_witness :
  size scenario_full =
    (if fst (delete 2 scenario_full) then 1 else 0)
    + size (snd (delete 2 scenario_full)) /\
  delete 2 (snd (delete 2 scenario_full)) = (false, snd (delete 2 scenario_full)).
Proof.
  apply (delete_accounting scenario_full 2 scenario_full_reachable).
Defined.

Lemma scenario_full_old :
  forall (k : nat) (h : ValueHolder nat),
    In (k, h) (_cache scenario_full) ->
    num_ge (of_Z 1000) (expirationTimestamp h) = true.
Proof.
  intros k h H. vm_compute in H.
  destruct H as [H | [H | [H | []]]]; injection H as _ <-; now vm_compute.
Qed.

Lemma expired_reads_drain_witness :
  run (map (fun k => (1000%Z, OpGet k)) (Map_keys (_cache scenario_full)))
      scenario_full
  = clear scenario_full.
Proof.
  apply (expired_reads_drain scenario_full 1000 scenario_full_old).
Defined.

Lemma set_new_key_witness :
  size (set 10 4 4 scenario_full) = Nat.min (S (size scenario_full)) 3.
Proof.
  destruct (set_new_key scenario_full 10 4 4 scenario_full_reachable
              scenario_key_4_missing) as [_ H].
  apply H. now vm_compute.
Defined.

Lemma set_frame_witness :
  Map_get 2 (_cache (set 10 4 4 scenario_full)) = Map_get 2 (_cache scenario_full)
  \/ (evictedKey 10 4 4 scenario_full = Some 2 /\
      Map_get 2 (_cache (set 10 4 4 scenario_full)) = None).
Proof.
  apply (set_frame scenario_full 10 4 4 2 scenario_full_reachable).
  discriminate.
Defined.

Lemma fifo_window_witness :
  size (run (map set_call (scenario_sets ++ [(10%Z, 4, 4)])) scenario_new)
  = Nat.min 4 3.
Proof.
  destruct (fifo_window 3 (of_nat 1000) scenario_new
              (scenario_sets ++ [(10%Z, 4, 4)])
              scenario_new_constructed scenario_keys_distinct) as [_ [H _]].
  exact H.
Defined.

Lemma populated_test_cache_reads_witness :
  exists c,
    createPopulatedTestCache 0 = Returned c /\
    get 59940 7 c = (Some 7, c) /\
    fst (get 60000 7 c) = None.
Proof.
  eexists. pose proof (createPopulatedTestCache_eq 0) as Hc.
  assert (Hkey : 1 <= 7 <= MOCK_CAPACITY) by (unfold MOCK_CAPACITY; lia).
  destruct (populated_test_cache_reads 0 59940 _ 7 Hc Hkey) as [H1 _].
  destruct (populated_test_cache_reads 0 60000 _ 7 Hc Hkey) as [_ H2].
  split; [exact Hc | ]. split.
  - apply H1. reflexivity.
  - apply H2. discriminate.
Defined.

Lemma unbounded_constructed :
  constructor PInf PInf =
  inr {| _capacity := PInf; _ttlMs := PInf; _cache := @nil (nat * ValueHolder nat) |}.
Proof. now vm_compute. Qed.

Lemma infinite_capacity_never_evicts_witness :
  evictedKey 10 4 4
    (run (map set_call scenario_sets)
         {| _capacity := PInf; _ttlMs := PInf; _cache := [] |}) = None.
Proof.
  destruct (infinite_capacity_never_evicts PInf _ (map set_call scenario_sets)
              10%Z 4 4 unbounded_constructed) as [H _].
  exact H.
Defined.

Lemma infinite_ttl_never_expires_witness :
  snd (get 99999999 2
         (run (map set_call scenario_sets)
              {| _capacity := PInf; _ttlMs := PInf; _cache := [] |}))
  = run (map set_call scenario_sets)
        {| _capacity := PInf; _ttlMs := PInf; _cache := [] |}.
Proof.
  destruct (infinite_ttl_never_expires PInf _ (map set_call scenario_sets)
              99999999%Z 2 unbounded_constructed) as [H _].
  exact H.
Defined.

(** ** The two versions of [get], and emptiness *)

Section Versions.
Context {K V : Type} {K_eq : EqDec K}.

(** [get] of dist/fifo-ttl-cache.js, routed through
    [_getExpiringEntry], returns what [get] of fifo-ttl-cache.ts returns
    and leaves the same cache; the entry [_getExpiringEntry] hands out
    is the stored one, is not outdated, and was not touched. *)
Theorem dist_get_agrees_with_source :
  forall (now : Z) (key : K) (c : FIFOCache K V),
    Dist.get now key c = get now key c /\
    snd (Dist._getExpiringEntry now key c) = snd (get now key c) /\
    forall entry,
      fst (Dist._getExpiringEntry now key c) = Some entry ->
      Map_get key (_cache c) = Some entry /\
      num_ge (of_Z now) (expirationTimestamp entry) = false /\
      snd (Dist._getExpiringEntry now key c) = c.
Proof.
  intros now key c. split; [apply Dist_get_eq | ].
  unfold Dist._getExpiringEntry, get.
  destruct (Map_get key (_cache c)) as [h | ]; simpl.
  - destruct (num_ge (of_Z now) (expirationTimestamp h)) eqn:Eold; simpl.
    + split; auto. intros entry H. discriminate.
    + split; auto. intros entry H. injection H as <-. auto.
  - split; auto. intros entry H. discriminate.
Qed.


End Versions.
